(** * pdf_compare: title extraction, normalisation and cross-collection matching

    A shallow embedding of [src/pdf_compare.py]:
    - [normalize_title]          (lines 71-80),
    - [extract_title_from_pdf]   (lines 9-69),
    - [find_similar_titles]      (lines 82-158),
    - the check of the threshold in [main] (lines 202-210),
    together with the library routine the matcher calls,
    [difflib.SequenceMatcher(None, a, b).ratio()].

    Python strings are sequences of Unicode code points.  The tables of the
    Python runtime the script relies on ([str.lower], the regular-expression
    classes [\w], [\s], [\d] and case-insensitive literal matching) are the
    fields of the class [PyChar]; [AsciiChar] instantiates it on the ASCII range,
    where every definition of this file computes. *)

From Stdlib Require Import Ascii String QArith.
From Stdlib Require Import List Arith Lia Bool.
From Stdlib Require Import Sorting.Sorted Sorting.Permutation.
Import ListNotations.

Local Open Scope nat_scope.
Local Open Scope list_scope.

(* ================================================================== *)
(** * Part I: the model *)
(* ================================================================== *)

(** ** Characters *)

(** What the script needs to know about a code point.  The three laws on
    [str_lower] say that lower-casing produces characters that lower-casing
    leaves alone (Python's only context-dependent case, capital sigma, is not a
    fixed point, so a string of fixed points is mapped character by
    character). *)
Class PyChar : Type := {
  char : Type;
  (** [c == d] on one-character strings *)
  char_eqb : char -> char -> bool;
  char_eqb_spec : forall x y, reflect (x = y) (char_eqb x y);
  (** the code point of an ASCII character written in the source *)
  lit : ascii -> char;
  (** [str.lower()] *)
  str_lower : list char -> list char;
  (** [str.isalnum()] on one character; [\w] is this or an underscore *)
  is_alnum : char -> bool;
  (** [\s], and the characters [str.strip()] removes *)
  is_space : char -> bool;
  (** [\d] *)
  is_decimal : char -> bool;
  (** a pattern literal matches the character under [re.IGNORECASE] *)
  ieq : char -> ascii -> bool;
  space_is_space : is_space (lit " "%char) = true;
  lower_lowered : forall s c, In c (str_lower s) -> str_lower [c] = [c];
  lower_fixed : forall s, (forall c, In c s -> str_lower [c] = [c]) -> str_lower s = s;
  lower_space : str_lower [lit " "%char] = [lit " "%char]
}.

Section Text.
Context {U : PyChar}.

(** A Python [str]. *)
Definition str : Type := list char.

Definition sp : char := lit " "%char.
Definition nl : char := lit "010"%char.

(** The pattern literals of the script, as ASCII strings. *)
Definition pat (s : string) : list ascii := list_ascii_of_string s.

(** [\w]: alphanumeric or the underscore. *)
Definition is_word (c : char) : bool := is_alnum c || char_eqb c (lit "_"%char).

Fixpoint drop_while (p : char -> bool) (s : str) : str :=
  match s with
  | [] => []
  | c :: s' => if p c then drop_while p s' else s
  end.

(** [s.strip()]: leading, then trailing whitespace removed. *)
Definition lstrip (s : str) : str := drop_while is_space s.
Definition rstrip (s : str) : str := rev (drop_while is_space (rev s)).
Definition strip (s : str) : str := rstrip (lstrip s).

(** ** normalize_title (lines 71-80) *)

(** [re.sub(r'[^\w\s]', ' ', title)]: every character that is neither [\w] nor
    [\s] becomes one space. *)
Definition sub_nonword (s : str) : str :=
  map (fun c => if is_word c || is_space c then c else sp) s.

(** [re.sub(r'\s+', ' ', title)]: every maximal run of whitespace becomes one
    space.  [in_run] tells that the previous character was whitespace. *)
Fixpoint sub_runs (in_run : bool) (s : str) : str :=
  match s with
  | [] => []
  | c :: s' =>
      if is_space c
      then (if in_run then sub_runs true s' else sp :: sub_runs true s')
      else c :: sub_runs false s'
  end.

(** [None] is Python's [None]; [if not title] holds for [None] and for the
    empty string. *)
Definition normalize_title (title : option str) : str :=
  match title with
  | None => []
  | Some [] => []
  | Some t => strip (sub_runs false (sub_nonword (str_lower t)))
  end.

End Text.

(** ** Exceptions *)

(** A Python call either returns or raises; [extract_title_from_pdf] wraps its
    whole body in [try ... except Exception: return None]. *)
Inductive result (A : Type) : Type :=
| Returns (a : A)
| Raises.
Arguments Returns {A} a.
Arguments Raises {A}.

Definition bind {A B : Type} (r : result A) (k : A -> result B) : result B :=
  match r with
  | Returns a => k a
  | Raises => Raises
  end.

Notation "x <- r ;; k" := (bind r (fun x => k))
  (at level 61, r at next level, right associativity).

Section Extractor.
Context {U : PyChar}.

(** ** extract_title_from_pdf (lines 9-69) *)

(** What the PDF reader gives for a file: opening or parsing raises, or there
    is a list of pages, and [extract_text()] on a page returns a string or
    raises. *)
Definition page : Type := result str.
Definition pdf : Type := result (list page).

(** [s.split(sep)] for a one-character separator: never an empty list. *)
Fixpoint split_on (sep : char) (s : str) : list str :=
  match s with
  | [] => [[]]
  | c :: s' =>
      if char_eqb c sep then [] :: split_on sep s'
      else match split_on sep s' with
           | [] => [[c]]
           | l :: ls => (c :: l) :: ls
           end
  end.

(** [sep.join(ls)]. *)
Fixpoint join (sep : str) (ls : list str) : str :=
  match ls with
  | [] => []
  | [l] => l
  | l :: ls' => l ++ sep ++ join sep ls'
  end.

(** Python truthiness of a string. *)
Definition truthy (s : str) : bool :=
  match s with [] => false | _ :: _ => true end.

(** Lines 33-35: [[line.strip() for line in text.split('\n') if line.strip()]]. *)
Definition nonempty_lines (text : str) : list str :=
  map strip (filter (fun line => truthy (strip line)) (split_on nl text)).

(** [$] without [re.MULTILINE]: the end of the string, or just before a
    newline that ends it. *)
Definition at_dollar (s : str) : bool :=
  match s with
  | [] => true
  | [c] => char_eqb c nl
  | _ => false
  end.

(** [^\d+$] *)
Definition re_digits (line : str) : bool :=
  match line with
  | [] => false
  | c :: _ => is_decimal c && at_dollar (drop_while is_decimal line)
  end.

(** [^\d{4}$] *)
Definition re_year (line : str) : bool :=
  (4 <=? length line) && forallb is_decimal (firstn 4 line) && at_dollar (skipn 4 line).

(** A literal at the start of the line, case ignored. *)
Fixpoint starts_with_ci (p : list ascii) (line : str) : bool :=
  match p, line with
  | [], _ => true
  | _ :: _, [] => false
  | a :: p', c :: line' => ieq c a && starts_with_ci p' line'
  end.

(** Line 41: [re.search(r'^\d+$|^Vol\.|^Abstract|^Pages|^\d{4}$|^Journal of',
    line, re.IGNORECASE)].  Every alternative is anchored at the start. *)
Definition re_not_title (line : str) : bool :=
  re_digits line
  || starts_with_ci (pat "Vol.") line
  || starts_with_ci (pat "Abstract") line
  || starts_with_ci (pat "Pages") line
  || re_year line
  || starts_with_ci (pat "Journal of") line.

(** Line 49: [re.match(r'^(Received|Submitted|Accepted|Published|Copyright|DOI)',
    line, re.IGNORECASE)]. *)
Definition re_front_matter (line : str) : bool :=
  existsb (fun p => starts_with_ci (pat p) line)
    ["Received"; "Submitted"; "Accepted"; "Published"; "Copyright"; "DOI"]%string.

(** The three [continue] tests of the loop body (lines 41, 45, 49): the line
    is discarded when one of them holds. *)
Definition discarded (line : str) : bool :=
  re_not_title line || (length line <? 10) || re_front_matter line.

(** Lines 38-56, the loop [for i, line in enumerate(lines[:10])].  [i] is the
    index of [line]; [acc] is [potential_title_lines].  A discarded line goes to
    the next iteration at once ([continue]); the [break] test stands after the
    [append]. *)
Fixpoint scan (i : nat) (lines : list str) (acc : list str) : list str :=
  match lines with
  | [] => acc
  | line :: rest =>
      if re_not_title line then scan (S i) rest acc
      else if length line <? 10 then scan (S i) rest acc
      else if re_front_matter line then scan (S i) rest acc
      else
        let acc' := acc ++ [line] in
        if (2 <=? i) && (0 <? length acc') then acc'
        else scan (S i) rest acc'
  end.

Definition potential_title_lines (lines : list str) : list str :=
  scan 0 (firstn 10 lines) [].

(** Lines 33-65, once [first_page_text] is known to be non-empty. *)
Definition title_of_text (first_page_text : str) : str :=
  let lines := nonempty_lines first_page_text in
  let potential_title := join [sp] (firstn 3 (potential_title_lines lines)) in
  if negb (truthy potential_title) && (100 <? length first_page_text)
  then firstn 100 first_page_text
  else potential_title.

(** The body of the [try] (lines 13-65). *)
Definition extract_title_body (file : pdf) : result (option str) :=
  pages <- file ;;
  match pages with
  | [] => Returns None
  | p0 :: more =>
      first_page_text <- p0 ;;
      first_page_text <-
        (if negb (truthy first_page_text) && (1 <? length pages)
         then match more with
              | p1 :: _ => p1
              | [] => Raises
              end
         else Returns first_page_text) ;;
      if negb (truthy first_page_text) then Returns None
      else Returns (Some (title_of_text first_page_text))
  end.

(** [extract_title_from_pdf]: [None] is Python's [None]. *)
Definition extract_title_from_pdf (file : pdf) : option str :=
  match extract_title_body file with
  | Returns title => title
  | Raises => None
  end.

(** The scan as section 4.2, step 4 of the specification words it: the stop
    test is made after every inspected line, whether or not that line survived
    the discard rules. *)
Fixpoint scan_spec (i : nat) (lines : list str) (acc : list str) : list str :=
  match lines with
  | [] => acc
  | line :: rest =>
      let acc' := if discarded line then acc else acc ++ [line] in
      if (2 <=? i) && (0 <? length acc') then acc'
      else scan_spec (S i) rest acc'
  end.

End Extractor.

(** ** difflib.SequenceMatcher *)

(** [difflib.SequenceMatcher] is Python's standard library and no file of
    the repository; line 142 of the script calls
    [SequenceMatcher(None, a, b).ratio()].  Section 4.4 of the specification
    describes what it computes: [ratio = 2*M / T], [M] the total length of the
    matching blocks found by a greedy longest-matching-block search applied
    again to the unmatched remainders on both sides, [T] the combined length.
    The definitions of this section are that search.  Where the specification
    leaves a choice open (which of several longest blocks is taken, what
    happens to frequent elements of a long sequence) they do what CPython's
    [Lib/difflib.py] does, since that is what the script runs.  Indices are
    natural numbers; the elements are compared with [eqb]. *)
Section SequenceMatcher.
Context {A : Type} (eqb : A -> A -> bool).

(** [Match(a, b, size)]. *)
Definition block : Type := (nat * nat * nat)%type.
Definition size (x : block) : nat := snd x.

(** [(alo, ahi, blo, bhi)]. *)
Definition region : Type := (nat * nat * nat * nat)%type.

(** [d.get(k)] on a dict kept as an association list. *)
Fixpoint dict_get {V : Type} (d : list (A * V)) (k : A) : option V :=
  match d with
  | [] => None
  | (k', v) :: d' => if eqb k' k then Some v else dict_get d' k
  end.

(** [b2j.setdefault(elt, []).append(i)]. *)
Fixpoint setdefault_append (b2j : list (A * list nat)) (elt : A) (i : nat)
  : list (A * list nat) :=
  match b2j with
  | [] => [(elt, [i])]
  | (k, idxs) :: rest =>
      if eqb k elt then (k, idxs ++ [i]) :: rest
      else (k, idxs) :: setdefault_append rest elt i
  end.

(** [for i, elt in enumerate(b)] of [__chain_b]. *)
Fixpoint chain_loop (b : list A) (i : nat) (b2j : list (A * list nat))
  : list (A * list nat) :=
  match b with
  | [] => b2j
  | elt :: b' => chain_loop b' (S i) (setdefault_append b2j elt i)
  end.

(** Modelled from the spec: [SequenceMatcher.__chain_b], not in the
    repository; the index of [b] the search of section 4.4 runs on.  With
    [isjunk = None] and [autojunk = True], the defaults the script takes, no
    element is junk, and in a sequence of 200 elements or more the elements
    that occur more than [n // 100 + 1] times are deleted from [b2j]. *)
Definition chain_b (b : list A) : list (A * list nat) :=
  let b2j := chain_loop b 0 [] in
  let n := length b in
  if 200 <=? n then
    let ntest := n / 100 + 1 in
    filter (fun e => negb (ntest <? length (snd e))) b2j
  else b2j.

(** [b2j.get(x, nothing)]. *)
Definition b2j_get (b2j : list (A * list nat)) (x : A) : list nat :=
  match dict_get b2j x with
  | Some idxs => idxs
  | None => []
  end.

(** [self.bjunk] is the empty set when [isjunk] is [None]. *)
Definition bjunk : list A := [].
Definition isbjunk (x : A) : bool := existsb (eqb x) bjunk.

(** [j2len.get(j, 0)], the dict kept as an association list whose first
    binding of a key is the current one. *)
Fixpoint j2len_get (j2len : list (nat * nat)) (j : nat) : nat :=
  match j2len with
  | [] => 0
  | (j', k) :: rest => if j' =? j then k else j2len_get rest j
  end.

(** [j2len.get(j-1, 0)]: no key is negative. *)
Definition j2len_pred (j2len : list (nat * nat)) (j : nat) : nat :=
  match j with
  | 0 => 0
  | S j' => j2len_get j2len j'
  end.

Section Search.
Variables (a b : list A) (b2j : list (A * list nat)).

(** The inner loop of [find_longest_match], [for j in b2j.get(a[i], nothing)].
    [i - k + 1] is written [i + 1 - k]: [k] is at most [i + 1]. *)
Fixpoint row (i blo bhi : nat) (js : list nat) (j2len newj2len : list (nat * nat))
  (best : block) : list (nat * nat) * block :=
  match js with
  | [] => (newj2len, best)
  | j :: js' =>
      if j <? blo then row i blo bhi js' j2len newj2len best
      else if bhi <=? j then (newj2len, best)
      else
        let k := j2len_pred j2len j + 1 in
        let best' := if size best <? k then (i + 1 - k, j + 1 - k, k) else best in
        row i blo bhi js' j2len ((j, k) :: newj2len) best'
  end.

(** The outer loop, [for i in range(alo, ahi)], [n] rows from row [i] on. *)
Fixpoint rows (n i blo bhi : nat) (j2len : list (nat * nat)) (best : block) : block :=
  match n with
  | 0 => best
  | S n' =>
      let js := match nth_error a i with
                | Some x => b2j_get b2j x
                | None => []
                end in
      let '(newj2len, best') := row i blo bhi js j2len [] best in
      rows n' (S i) blo bhi newj2len best'
  end.

(** [while besti > alo and bestj > blo and (not) isbjunk(b[bestj-1]) and
    a[besti-1] == b[bestj-1]]; [junk] tells which of the two loops it is. *)
Fixpoint extend_left (junk : bool) (alo blo besti bestj bestsize : nat) : block :=
  match besti, bestj with
  | S i', S j' =>
      match nth_error a i', nth_error b j' with
      | Some x, Some y =>
          if (alo <? besti) && (blo <? bestj) && Bool.eqb (isbjunk y) junk && eqb x y
          then extend_left junk alo blo i' j' (S bestsize)
          else (besti, bestj, bestsize)
      | _, _ => (besti, bestj, bestsize)
      end
  | _, _ => (besti, bestj, bestsize)
  end.

(** [while besti+bestsize < ahi and bestj+bestsize < bhi and (not)
    isbjunk(b[bestj+bestsize]) and a[besti+bestsize] == b[bestj+bestsize]];
    [n] bounds the iterations and is [ahi - (besti + bestsize)] at the call. *)
Fixpoint extend_right (junk : bool) (n ahi bhi besti bestj bestsize : nat) : block :=
  match n with
  | 0 => (besti, bestj, bestsize)
  | S n' =>
      match nth_error a (besti + bestsize), nth_error b (bestj + bestsize) with
      | Some x, Some y =>
          if (besti + bestsize <? ahi) && (bestj + bestsize <? bhi)
             && Bool.eqb (isbjunk y) junk && eqb x y
          then extend_right junk n' ahi bhi besti bestj (S bestsize)
          else (besti, bestj, bestsize)
      | _, _ => (besti, bestj, bestsize)
      end
  end.

(** Modelled from the spec: [SequenceMatcher.find_longest_match(alo, ahi, blo,
    bhi)], not in the repository; the "longest matching block" of section 4.4.
    Among the longest blocks free of deleted elements it is the one that
    starts first in [a], and of those the one that starts first in [b]; it is
    then extended on both sides as far as the elements agree. *)
Definition find_longest_match (alo ahi blo bhi : nat) : block :=
  let '(besti, bestj, bestsize) := rows (ahi - alo) alo blo bhi [] (alo, blo, 0) in
  let '(besti, bestj, bestsize) := extend_left false alo blo besti bestj bestsize in
  let '(besti, bestj, bestsize) :=
    extend_right false (ahi - (besti + bestsize)) ahi bhi besti bestj bestsize in
  let '(besti, bestj, bestsize) := extend_left true alo blo besti bestj bestsize in
  extend_right true (ahi - (besti + bestsize)) ahi bhi besti bestj bestsize.

(** The [while queue] loop of [get_matching_blocks].  The head of [queue] is
    the end of the Python list, where [pop] takes and [append] puts.  [None]
    when [fuel] iterations do not empty the queue. *)
Fixpoint blocks_loop (fuel : nat) (queue : list region) (matching_blocks : list block)
  : option (list block) :=
  match queue with
  | [] => Some matching_blocks
  | (alo, ahi, blo, bhi) :: queue =>
      match fuel with
      | 0 => None
      | S fuel' =>
          let '(i, j, k) := find_longest_match alo ahi blo bhi in
          if 0 <? k then
            let queue := if (alo <? i) && (blo <? j)
                         then (alo, i, blo, j) :: queue else queue in
            let queue := if (i + k <? ahi) && (j + k <? bhi)
                         then (i + k, ahi, j + k, bhi) :: queue else queue in
            blocks_loop fuel' queue (matching_blocks ++ [(i, j, k)])
          else blocks_loop fuel' queue matching_blocks
      end
  end.

End Search.

(** Tuples compare lexicographically. *)
Definition block_leb (x y : block) : bool :=
  let '(i1, j1, k1) := x in
  let '(i2, j2, k2) := y in
  (i1 <? i2) || ((i1 =? i2) && ((j1 <? j2) || ((j1 =? j2) && (k1 <=? k2)))).

Fixpoint insert_block (x : block) (l : list block) : list block :=
  match l with
  | [] => [x]
  | y :: l' => if block_leb x y then x :: l else y :: insert_block x l'
  end.

(** [matching_blocks.sort()]. *)
Definition sort_blocks (l : list block) : list block := fold_right insert_block [] l.

(** The loop that joins adjacent blocks, [(i1, j1, k1)] the block compared
    against, with the two [if k1: non_adjacent.append(...)]. *)
Fixpoint collapse (i1 j1 k1 : nat) (blocks non_adjacent : list block) : list block :=
  match blocks with
  | [] => if 0 <? k1 then non_adjacent ++ [(i1, j1, k1)] else non_adjacent
  | (i2, j2, k2) :: rest =>
      if (i1 + k1 =? i2) && (j1 + k1 =? j2)
      then collapse i1 j1 (k1 + k2) rest non_adjacent
      else collapse i2 j2 k2 rest
             (if 0 <? k1 then non_adjacent ++ [(i1, j1, k1)] else non_adjacent)
  end.

(** The blocks the queue loop finds for the whole of [a] and [b].  A region on
    the queue costs at most [2 * (ahi - alo) + 1] iterations
    ([blocks_loop_terminates]), so the fuel is never used up. *)
Definition raw_blocks (a b : list A) : option (list block) :=
  blocks_loop a b (chain_b b) (2 * length a + 1) [(0, length a, 0, length b)] [].

(** Modelled from the spec: [SequenceMatcher.get_matching_blocks()], not in
    the repository; the blocks of the search "applied recursively to the
    unmatched remainders" of section 4.4, sorted, adjacent ones joined, and the
    closing [(la, lb, 0)]. *)
Definition get_matching_blocks (a b : list A) : list block :=
  match raw_blocks a b with
  | Some matching_blocks =>
      collapse 0 0 0 (sort_blocks matching_blocks) [] ++ [(length a, length b, 0)]
  | None => []
  end.

(** [_calculate_ratio(matches, length)]: [2.0 * matches / length], and [1.0]
    for [length == 0].  The value is kept as the exact rational [2*M / T]; the
    float Python returns is its rounding to the nearest double, which is
    monotone, is exact on 0, 1/4, 1/2 and 1, and is 1 only for [2*M = T] at
    every length a string can have ([T < 2^53]). *)
Definition calculate_ratio (matches len : nat) : Q :=
  if len =? 0 then 1%Q else (Z.of_nat (2 * matches) # Pos.of_nat len)%Q.

(** Modelled from the spec: [SequenceMatcher(None, a, b).ratio()], not in the
    repository; [2*M / T] of section 4.4. *)
Definition ratio (a b : list A) : Q :=
  calculate_ratio (list_sum (map size (get_matching_blocks a b))) (length a + length b).

End SequenceMatcher.

(** ** find_similar_titles (lines 82-158) *)

Section Matcher.
Context {U : PyChar}.

(** A path the glob of [get_pdf_files] lists: its path relative to the folder
    ([str(file_path.relative_to(folder))]), the test of lines 109 and 130
    ([is_file() and suffix.lower() == '.pdf']) and what the PDF reader finds
    in it. *)
Record pdf_file : Type := {
  rel_path : str;
  is_pdf : bool;
  content : pdf
}.

(** The values of [folder_a_titles]. *)
Record title_info : Type := {
  original : str;
  normalized : str
}.

(** The dicts appended to [similar_papers]. *)
Record candidate : Type := {
  path_a : str;
  path_b : str;
  title_a : str;
  title_b : str;
  similarity : Q
}.

Fixpoint str_eqb (s t : str) : bool :=
  match s, t with
  | [], [] => true
  | c :: s', d :: t' => char_eqb c d && str_eqb s' t'
  | _, _ => false
  end.

(** [d[k] = v]: a key already present keeps its place, a new key goes last;
    the dict iterates in this order. *)
Fixpoint dict_set (d : list (str * title_info)) (k : str) (v : title_info)
  : list (str * title_info) :=
  match d with
  | [] => [(k, v)]
  | (k', v') :: d' =>
      if str_eqb k' k then (k', v) :: d' else (k', v') :: dict_set d' k v
  end.

(** The body of the loop over [files_a] (lines 109-118).  The [except] of line
    119 catches nothing here: [extract_title_from_pdf] raises nothing, and
    neither do [normalize_title] and [relative_to] on a path of the glob. *)
Definition index_step (folder_a_titles : list (str * title_info)) (file : pdf_file)
  : list (str * title_info) :=
  if is_pdf file then
    match extract_title_from_pdf (content file) with
    | Some title =>
        if truthy title
        then dict_set folder_a_titles (rel_path file)
               {| original := title; normalized := normalize_title (Some title) |}
        else folder_a_titles
    | None => folder_a_titles
    end
  else folder_a_titles.

(** [folder_a_titles] after the loop of line 108. *)
Definition build_index (files_a : list pdf_file) : list (str * title_info) :=
  fold_left index_step files_a [].

(** The body of the inner loop (lines 139-151).  The similarity is the
    rational [ratio] gives, taken before Python rounds it to a float, and the
    threshold is a rational too. *)
Definition compare_step (similarity_threshold : Q) (relative_path_b title_b
  normalized_title_b : str) (similar_papers : list candidate)
  (item : str * title_info) : list candidate :=
  let '(path_a, title_info_a) := item in
  let normalized_title_a := normalized title_info_a in
  let similarity := ratio char_eqb normalized_title_a normalized_title_b in
  if Qle_bool similarity_threshold similarity
  then similar_papers ++
         [{| path_a := path_a; path_b := relative_path_b;
             title_a := original title_info_a; title_b := title_b;
             similarity := similarity |}]
  else similar_papers.

(** The body of the loop over [files_b] (lines 130-151). *)
Definition match_step (folder_a_titles : list (str * title_info))
  (similarity_threshold : Q) (similar_papers : list candidate) (file : pdf_file)
  : list candidate :=
  if is_pdf file then
    match extract_title_from_pdf (content file) with
    | Some title_b =>
        if truthy title_b
        then
          let normalized_title_b := normalize_title (Some title_b) in
          let relative_path_b := rel_path file in
          fold_left
            (compare_step similarity_threshold relative_path_b title_b normalized_title_b)
            folder_a_titles similar_papers
        else similar_papers
    | None => similar_papers
    end
  else similar_papers.

(** [similar_papers] before the sort of line 156. *)
Definition discovered (files_a files_b : list pdf_file) (similarity_threshold : Q)
  : list candidate :=
  fold_left (match_step (build_index files_a) similarity_threshold) files_b [].

(** [list.sort(key=lambda x: x['similarity'], reverse=True)]: Python's sort
    is stable, also with [reverse=True].  An element goes in front of the
    sorted rest and moves right past the elements whose key is greater. *)
Fixpoint insert_desc (c : candidate) (l : list candidate) : list candidate :=
  match l with
  | [] => [c]
  | d :: l' =>
      if Qle_bool (similarity d) (similarity c) then c :: l
      else d :: insert_desc c l'
  end.

Definition sort_desc (l : list candidate) : list candidate :=
  fold_right insert_desc [] l.

(** [find_similar_titles(folder_a, folder_b, similarity_threshold, recursive)],
    the two folders given by what [get_pdf_files] lists in them. *)
Definition find_similar_titles (files_a files_b : list pdf_file)
  (similarity_threshold : Q) : list candidate :=
  sort_desc (discovered files_a files_b similarity_threshold).

End Matcher.

(** ** main (lines 183-233): the similarity threshold *)

(** A Python [float]: a finite double, taken as the rational it is, an
    infinity or not-a-number. *)
Inductive pyfloat : Type :=
| Finite (q : Q)
| PosInf
| NegInf
| NaN.

(** [x < y] on floats; a comparison with not-a-number is false. *)
Definition float_ltb (x y : pyfloat) : bool :=
  match x, y with
  | NaN, _ | _, NaN => false
  | _, NegInf => false
  | NegInf, _ => true
  | PosInf, _ => false
  | Finite _, PosInf => true
  | Finite p, Finite q => negb (Qle_bool q p)
  end.

(** The double [0.8]. *)
Definition default_threshold : pyfloat :=
  Finite (3602879701896397 # 4503599627370496).

(** Lines 202-210.  [parsed] is what [float(similarity_threshold_input)]
    does: it returns a float, or raises [ValueError], which the [except] of
    line 208 catches. *)
Definition checked_threshold (parsed : result pyfloat) : pyfloat :=
  match parsed with
  | Returns similarity_threshold =>
      if float_ltb similarity_threshold (Finite 0)
         || float_ltb (Finite 1) similarity_threshold
      then default_threshold
      else similarity_threshold
  | Raises => default_threshold
  end.

(** ** The ASCII range *)

Module Ascii7.

Definition code (c : ascii) : nat := nat_of_ascii c.

Definition between (lo hi : nat) (c : ascii) : bool :=
  (lo <=? code c) && (code c <=? hi).

Definition upper (c : ascii) : bool := between 65 90 c.

(** [c.lower()]. *)
Definition lower1 (c : ascii) : ascii :=
  if upper c then ascii_of_nat (code c + 32) else c.

Definition decimal (c : ascii) : bool := between 48 57 c.

Definition alnum (c : ascii) : bool :=
  decimal c || between 65 90 c || between 97 122 c.

(** Tab, line feed, vertical tab, form feed, carriage return, the four
    separators 28-31 and the space. *)
Definition space (c : ascii) : bool :=
  between 9 13 c || between 28 31 c || (code c =? 32).

Definition ieq1 (c p : ascii) : bool := Ascii.eqb (lower1 c) (lower1 p).

End Ascii7.

(** Python on the ASCII range.  A byte above 127 is no ASCII character; it is
    classified as a symbol here. *)
#[global, refine] Instance AsciiChar : PyChar := {|
  char := ascii;
  char_eqb := Ascii.eqb;
  lit := fun c => c;
  str_lower := map Ascii7.lower1;
  is_alnum := Ascii7.alnum;
  is_space := Ascii7.space;
  is_decimal := Ascii7.decimal;
  ieq := Ascii7.ieq1
|}.
Proof.
  - exact Ascii.eqb_spec.
  - reflexivity.
  - abstract (intros s c H; apply in_map_iff in H; destruct H as [d [<- _]];
              destruct d as [[] [] [] [] [] [] [] []]; reflexivity).
  - abstract (induction s as [|c s IH]; intros H; [reflexivity|]; simpl; f_equal;
              [ specialize (H c (or_introl eq_refl)); simpl in H; congruence
              | apply IH; intros d Hd; apply H; now right ]).
  - reflexivity.
Defined.

(** A string literal as a Python [str] of the ASCII instance. *)
Definition s2l (s : string) : @str AsciiChar := list_ascii_of_string s.

(** ** Notions the properties are stated with *)

Section TextNotions.
Context {U : PyChar}.

(** Every whitespace character of [s] is a space and is followed by no
    whitespace. *)
Fixpoint no_run (s : str) : Prop :=
  match s with
  | [] => True
  | c :: s' =>
      (is_space c = true ->
       c = sp /\ match s' with [] => True | d :: _ => is_space d = false end)
      /\ no_run s'
  end.

Definition starts_clean (s : str) : Prop :=
  match s with [] => True | c :: _ => is_space c = false end.

Definition ends_clean (s : str) : Prop := starts_clean (rev s).

(** Every whitespace character of [s] is one space, with a character that is
    no whitespace right before it and one right after it. *)
Definition single_spaced (s : str) : Prop :=
  forall l c r, s = l ++ c :: r -> is_space c = true ->
    c = sp
    /\ (exists l' x, l = l' ++ [x] /\ is_space x = false)
    /\ (exists y r', r = y :: r' /\ is_space y = false).

(** The line passes the three [continue] tests. *)
Definition survives (line : str) : bool := negb (discarded line).

(** What one pass of the inner loop appends for an item of the index. *)
Definition compared (t : Q) (file_b : pdf_file) (tb : str) (item : str * title_info)
  : list candidate :=
  let sim := ratio char_eqb (normalized (snd item)) (normalize_title (Some tb)) in
  if Qle_bool t sim
  then [{| path_a := fst item; path_b := rel_path file_b;
           title_a := original (snd item); title_b := tb; similarity := sim |}]
  else [].

(** What one pass of the loop over [files_b] appends. *)
Definition file_candidates (idx : list (str * title_info)) (t : Q) (file_b : pdf_file)
  : list candidate :=
  if is_pdf file_b then
    match extract_title_from_pdf (content file_b) with
    | Some tb => if truthy tb then flat_map (compared t file_b tb) idx else []
    | None => []
    end
  else [].

(** The file passes the test of lines 109 and 130 and its extracted title [t]
    is a non-empty string. *)
Definition has_title (f : pdf_file) (t : str) : Prop :=
  is_pdf f = true /\ extract_title_from_pdf (content f) = Some t /\ t <> [].

(** The candidate of an index item and a file of folder B with title [tb]. *)
Definition candidate_of (item : str * title_info) (file_b : pdf_file) (tb : str)
  : candidate :=
  {| path_a := fst item; path_b := rel_path file_b;
     title_a := original (snd item); title_b := tb;
     similarity := ratio char_eqb (normalized (snd item)) (normalize_title (Some tb)) |}.

Definition paths (c : candidate) : str * str := (path_a c, path_b c).

Definition has_similarity (s : Q) (c : candidate) : bool := Qeq_bool (similarity c) s.

(** The item of the index was made from a file of the folder. *)
Definition from_file (files : list pdf_file) (item : str * title_info) : Prop :=
  exists f, In f files /\ rel_path f = fst item /\ has_title f (original (snd item))
            /\ normalized (snd item) = normalize_title (Some (original (snd item))).

Definition geq (c d : candidate) : Prop := (similarity d <= similarity c)%Q.

End TextNotions.

Section WordNotions.
Context {U : PyChar}.

(** A character the normaliser leaves in place and does not take for a
    separator: a word character that is no whitespace. *)
Definition kept (c : char) : bool := is_word c && negb (is_space c).

(** [c] put in front of the first word. *)
Definition push (c : char) (ws : list str) : list str :=
  match ws with
  | [] => [[c]]
  | w :: ws' => (c :: w) :: ws'
  end.

(** The words of [s]: its maximal runs of kept characters, in order. *)
Fixpoint words (s : str) : list str :=
  match s with
  | [] => []
  | c :: s' =>
      if kept c
      then match s' with
           | d :: _ => if kept d then push c (words s') else [c] :: words s'
           | [] => [[c]]
           end
      else words s'
  end.

End WordNotions.

Section BlockNotions.
Context {A : Type} (eqb : A -> A -> bool).

(** The indices of [x] in [b], counted from [i], in increasing order. *)
Fixpoint positions (x : A) (b : list A) (i : nat) : list nat :=
  match b with
  | [] => []
  | y :: b' => if eqb y x then i :: positions x b' (S i) else positions x b' (S i)
  end.

(** [x] is one of the frequent elements [__chain_b] deletes from [b2j]. *)
Definition popular (b : list A) (x : A) : bool :=
  (200 <=? length b) && (length b / 100 + 1 <? length (positions x b 0)).

(** [a[i:i+k] == b[j:j+k]], both slices inside the sequences. *)
Definition matches_at (a b : list A) (i j k : nat) : Prop :=
  forall t, t < k -> exists x, nth_error a (i + t) = Some x /\ nth_error b (j + t) = Some x.

(** The block lies in the region and its two slices are equal. *)
Definition valid_block (a b : list A) (r : region) (x : block) : Prop :=
  let '(alo, ahi, blo, bhi) := r in
  let '(i, j, k) := x in
  alo <= i /\ i + k <= ahi /\ blo <= j /\ j + k <= bhi /\ matches_at a b i j k.

Definition wf_region (r : region) : Prop :=
  let '(alo, ahi, blo, bhi) := r in alo <= ahi /\ blo <= bhi.

(** The most a region can add to the matched total. *)
Definition cap (r : region) : nat :=
  let '(alo, ahi, blo, bhi) := r in Nat.min (ahi - alo) (bhi - blo).

(** The iterations of the queue loop a region can cost. *)
Definition cost (r : region) : nat :=
  let '(alo, ahi, blo, bhi) := r in 2 * (ahi - alo) + 1.

(** When the two sides of the region have one length, they are equal. *)
Definition agree (a b : list A) (r : region) : Prop :=
  let '(alo, ahi, blo, bhi) := r in
  ahi - alo = bhi - blo -> matches_at a b alo blo (ahi - alo).

(** The matched total [M] of a list of blocks. *)
Definition total (l : list block) : nat := list_sum (map size l).

(** [j2len] before row [i]: a positive entry at [j] is the length of a match
    that ends at [a[i-1]] and [b[j]] and lies in the region. *)
Definition j2len_ok (a b : list A) (alo blo bhi i : nat) (j2len : list (nat * nat))
  : Prop :=
  forall j, 0 < j2len_get j2len j ->
    j2len_get j2len j <= i - alo
    /\ blo + j2len_get j2len j <= j + 1
    /\ j < bhi
    /\ matches_at a b (i - j2len_get j2len j) (j + 1 - j2len_get j2len j)
         (j2len_get j2len j).

(** The queue after the two [append]s of [get_matching_blocks]. *)
Definition next_queue (r : region) (x : block) (queue : list region) : list region :=
  let '(alo, ahi, blo, bhi) := r in
  let '(i, j, k) := x in
  let queue := if (alo <? i) && (blo <? j) then (alo, i, blo, j) :: queue else queue in
  if (i + k <? ahi) && (j + k <? bhi) then (i + k, ahi, j + k, bhi) :: queue else queue.

(** What is left of a region on the two sides of a block. *)
Definition left_of (r : region) (x : block) : region :=
  let '(alo, ahi, blo, bhi) := r in let '(i, j, k) := x in (alo, i, blo, j).

Definition right_of (r : region) (x : block) : region :=
  let '(alo, ahi, blo, bhi) := r in let '(i, j, k) := x in (i + k, ahi, j + k, bhi).

(** [s[i] == s[j]], and the element is one [b2j] keeps. *)
Definition indexed_match (s : list A) (i j : nat) : bool :=
  match nth_error s i, nth_error s j with
  | Some x, Some y =>
      eqb x y && match b2j_get eqb (chain_b eqb s) x with [] => false | _ :: _ => true end
  | _, _ => false
  end.

(** The length of the longest run of indexed matches that ends just before
    [s[i]] and [s[j]]: what [j2len] holds when a sequence is compared with
    itself. *)
Fixpoint run_length (s : list A) (i j : nat) : nat :=
  match i, j with
  | S i', S j' => if indexed_match s i' j' then S (run_length s i' j') else 0
  | _, _ => 0
  end.

End BlockNotions.

Section MatcherNotions.
Context {U : PyChar}.

(** The file passes the test of lines 109 and 130 and the title extracted
    from it passes [if title:]. *)
Definition titled (f : pdf_file) : bool :=
  is_pdf f
  && match extract_title_from_pdf (content f) with
     | Some title => truthy title
     | None => false
     end.

(** The title extracted from the file, the empty string when there is none. *)
Definition title_of (f : pdf_file) : str :=
  match extract_title_from_pdf (content f) with
  | Some title => title
  | None => []
  end.

(** The item line 114 stores for the file. *)
Definition entry_of (f : pdf_file) : str * title_info :=
  (rel_path f,
   {| original := title_of f; normalized := normalize_title (Some (title_of f)) |}).

(** The test of line 144 on a candidate. *)
Definition reaches (t : Q) (c : candidate) : bool := Qle_bool t (similarity c).

End MatcherNotions.

(** ** Concrete inputs *)

(** A file of one page with one line. *)
Definition one_line_pdf (path line : string) : pdf_file :=
  {| rel_path := s2l path; is_pdf := true; content := Returns [Returns (s2l line)] |}.

Definition folder_a0 : list pdf_file := [one_line_pdf "a.pdf" "----------"].
Definition folder_b0 : list pdf_file := [one_line_pdf "b.pdf" "=========="].

(** The pair of the two rulers, with similarity 1. *)
Definition ruler_candidate : candidate :=
  {| path_a := s2l "a.pdf"; path_b := s2l "b.pdf";
     title_a := s2l "----------"; title_b := s2l "==========";
     similarity := 1 |}.

(** The third scenario of section 8 of the specification. *)
Definition scenario_a : list pdf_file := [one_line_pdf "x.pdf" "Deep Learning for X"].
Definition scenario_b : list pdf_file :=
  [one_line_pdf "y.pdf" "Deep Learning 4 X"; one_line_pdf "z.pdf" "Completely Unrelated Topic"].

(** Five lines of which the second, third and fourth are discarded. *)
Definition lines0 : list (list ascii) :=
  map s2l ["A Fast Method"; "2023"; "2024"; "2025"; "For Widget Detection"]%string.

(** The page text of the first scenario of section 8 of the specification. *)
Definition first_page_scenario : @str AsciiChar :=
  join ["010"%char]
    (map s2l ["Journal of Testing"; "2023"; "A Fast Method For Widget Detection";
              "Jane Doe, John Smith"; "Abstract: ..."]%string).

(** A file whose title differs from the one of [scenario_a] in case and
    punctuation only. *)
Definition shouting_pdf : pdf_file := one_line_pdf "c.pdf" "DEEP LEARNING: for X!".

(* ================================================================== *)
(** * Part II: properties *)
(* ================================================================== *)

(** ** The model on the examples of the library's documentation and on the
    scenarios of the specification *)

Example doc_get_matching_blocks :
  get_matching_blocks Ascii.eqb (s2l "abxcd") (s2l "abcd")
  = [(0, 0, 2); (3, 2, 2); (5, 4, 0)].
Proof. vm_compute. reflexivity. Qed.

Example doc_find_longest_match :
  find_longest_match Ascii.eqb (s2l " abcd") (s2l "abcd abcd")
    (chain_b Ascii.eqb (s2l "abcd abcd")) 0 5 0 9 = (0, 4, 5).
Proof. vm_compute. reflexivity. Qed.

Example doc_find_longest_match_none :
  find_longest_match Ascii.eqb (s2l "ab") (s2l "c") (chain_b Ascii.eqb (s2l "c")) 0 2 0 1
  = (0, 0, 0).
Proof. vm_compute. reflexivity. Qed.

Example doc_ratio : (ratio Ascii.eqb (s2l "abcd") (s2l "bcde") == 3 # 4)%Q.
Proof. vm_compute. reflexivity. Qed.

Example scenario_extraction :
  extract_title_from_pdf (Returns [Returns first_page_scenario])
  = Some (s2l "A Fast Method For Widget Detection").
Proof. vm_compute. reflexivity. Qed.

Example scenario_trailing_space :
  normalize_title (Some (s2l "A Fast Method for Widget Detection "))
  = s2l "a fast method for widget detection"
  /\ (ratio Ascii.eqb (normalize_title (Some (s2l "A Fast Method for Widget Detection ")))
        (s2l "a fast method for widget detection") == 1)%Q.
Proof. split; vm_compute; reflexivity. Qed.

Example scenario_one_match :
  map paths (find_similar_titles scenario_a scenario_b (8 # 10))
  = [(s2l "x.pdf", s2l "y.pdf")].
Proof. reflexivity. Qed.

Example scenario_empty_folder_a : find_similar_titles [] scenario_b (8 # 10) = [].
Proof. reflexivity. Qed.

(** ** Whitespace runs and stripping *)

Section NormalizeFacts.
Context {U : PyChar}.

Lemma sub_runs_true_starts_clean (s : str) : starts_clean (sub_runs true s).
Proof.
  induction s as [|c s IH]; simpl; [exact I|].
  destruct (is_space c) eqn:E; [exact IH | exact E].
Qed.

Lemma sub_runs_no_run (s : str) : forall b, no_run (sub_runs b s).
Proof.
  induction s as [|c s IH]; intros b; simpl; [exact I|].
  destruct (is_space c) eqn:E.
  - destruct b; [apply IH|].
    simpl. split; [|apply IH].
    intros _. split; [reflexivity|].
    pose proof (sub_runs_true_starts_clean s) as H.
    destruct (sub_runs true s); [exact I | exact H].
  - simpl. split; [|apply IH]. intros E'. congruence.
Qed.

Lemma sub_runs_fixed (s : str) :
  forall b, no_run s -> (b = true -> starts_clean s) -> sub_runs b s = s.
Proof.
  induction s as [|c s IH]; intros b Hn Hs; simpl; [reflexivity|].
  destruct Hn as [Hc Hn].
  destruct (is_space c) eqn:E.
  - destruct b.
    + specialize (Hs eq_refl). simpl in Hs. congruence.
    + destruct (Hc eq_refl) as [-> Hd]. f_equal.
      apply IH; [exact Hn|]. intros _. destruct s; [exact I | exact Hd].
  - f_equal. apply IH; [exact Hn|]. intros Hb. discriminate Hb.
Qed.

Lemma drop_while_split (p : char -> bool) (s : str) :
  exists pre, s = pre ++ drop_while p s /\ Forall (fun c => p c = true) pre.
Proof.
  induction s as [|c s [pre [H1 H2]]]; simpl.
  - exists []. split; [reflexivity | constructor].
  - destruct (p c) eqn:E.
    + exists (c :: pre). split; [simpl; congruence | constructor; assumption].
    + exists []. split; [reflexivity | constructor].
Qed.

Lemma drop_while_starts_clean (s : str) : starts_clean (drop_while is_space s).
Proof.
  induction s as [|c s IH]; simpl; [exact I|].
  destruct (is_space c) eqn:E; [exact IH | exact E].
Qed.

Lemma drop_while_fixed (s : str) : starts_clean s -> drop_while is_space s = s.
Proof. destruct s as [|c s]; simpl; [reflexivity|]. now intros ->. Qed.

Lemma lstrip_split (s : str) : exists pre, s = pre ++ lstrip s.
Proof. destruct (drop_while_split is_space s) as [pre [H _]]. now exists pre. Qed.

Lemma rstrip_split (s : str) : exists post, s = rstrip s ++ post.
Proof.
  unfold rstrip. destruct (drop_while_split is_space (rev s)) as [pre [H _]].
  exists (rev pre). rewrite <- rev_app_distr, <- H. symmetry. apply rev_involutive.
Qed.

Lemma strip_split (s : str) : exists pre post, s = pre ++ strip s ++ post.
Proof.
  destruct (lstrip_split s) as [pre H]. destruct (rstrip_split (lstrip s)) as [post H'].
  exists pre, post. unfold strip. now rewrite <- H'.
Qed.

Lemma no_run_app_r (l1 l2 : str) : no_run (l1 ++ l2) -> no_run l2.
Proof. induction l1 as [|c l1 IH]; simpl; [tauto|]. intros [_ H]. now apply IH. Qed.

Lemma no_run_app_l (l1 l2 : str) : no_run (l1 ++ l2) -> no_run l1.
Proof.
  induction l1 as [|c l1 IH]; simpl; [tauto|].
  intros [Hc H]. split; [|now apply IH].
  intros E. destruct (Hc E) as [-> Hd]. split; [reflexivity|].
  destruct l1; [exact I | exact Hd].
Qed.

Lemma strip_no_run (s : str) : no_run s -> no_run (strip s).
Proof.
  destruct (strip_split s) as [pre [post H]]. intros Hn. rewrite H in Hn.
  apply no_run_app_r in Hn. now apply no_run_app_l in Hn.
Qed.

Lemma strip_starts_clean (s : str) : starts_clean (strip s).
Proof.
  unfold strip. pose proof (drop_while_starts_clean s) as H. fold (lstrip s) in H.
  destruct (rstrip_split (lstrip s)) as [post Hp].
  destruct (rstrip (lstrip s)) as [|c r]; [exact I|].
  rewrite Hp in H. exact H.
Qed.

Lemma strip_ends_clean (s : str) : ends_clean (strip s).
Proof.
  unfold ends_clean, strip, rstrip. rewrite rev_involutive.
  apply drop_while_starts_clean.
Qed.

Lemma strip_fixed (s : str) : starts_clean s -> ends_clean s -> strip s = s.
Proof.
  intros Hs He. unfold strip, lstrip, rstrip.
  rewrite (drop_while_fixed s Hs), (drop_while_fixed (rev s) He).
  apply rev_involutive.
Qed.

Lemma strip_In (s : str) (c : char) : In c (strip s) -> In c s.
Proof.
  destruct (strip_split s) as [pre [post H]]. intros Hc. rewrite H.
  apply in_or_app. right. apply in_or_app. now left.
Qed.

Lemma sub_runs_In (s : str) (c : char) :
  forall b, In c (sub_runs b s) -> c = sp \/ (is_space c = false /\ In c s).
Proof.
  induction s as [|d s IH]; intros b; simpl; [tauto|].
  destruct (is_space d) eqn:E.
  - destruct b; simpl; intros H.
    + destruct (IH _ H) as [?|[? ?]]; auto.
    + destruct H as [H|H]; [now left|]. destruct (IH _ H) as [?|[? ?]]; auto.
  - simpl. intros [H|H].
    + subst d. right. split; auto.
    + destruct (IH _ H) as [?|[? ?]]; auto.
Qed.

Lemma sub_nonword_In (s : str) (c : char) :
  In c (sub_nonword s) -> c = sp \/ ((is_word c || is_space c = true) /\ In c s).
Proof.
  unfold sub_nonword. intros H. apply in_map_iff in H. destruct H as [d [H Hd]].
  destruct (is_word d || is_space d) eqn:E; [|now left].
  subst d. right. now split.
Qed.

(** The characters of a normalised title: a space, or a word character of
    the lower-cased title that is no whitespace. *)
Lemma normalize_title_In (t : option str) (c : char) :
  In c (normalize_title t) ->
  c = sp \/ (is_space c = false /\ is_word c = true /\
             exists s, t = Some s /\ In c (str_lower s)).
Proof.
  destruct t as [[|d t]|]; simpl; try tauto.
  intros H. apply strip_In in H. apply sub_runs_In in H.
  destruct H as [H|[Hs H]]; [now left|].
  apply sub_nonword_In in H. destruct H as [H|[Hw H]]; [now left|].
  right. rewrite Hs, orb_false_r in Hw. repeat split; auto.
  exists (d :: t). now split.
Qed.

Lemma normalize_title_shape (t : option str) :
  no_run (normalize_title t) /\ starts_clean (normalize_title t)
  /\ ends_clean (normalize_title t).
Proof.
  destruct t as [[|d t]|]; simpl; try (repeat split; exact I).
  split; [|split].
  - apply strip_no_run, sub_runs_no_run.
  - apply strip_starts_clean.
  - apply strip_ends_clean.
Qed.

Lemma sub_nonword_fixed (s : str) :
  (forall c, In c s -> is_word c || is_space c = true) -> sub_nonword s = s.
Proof.
  intros H. unfold sub_nonword. rewrite <- (map_id s) at 2.
  apply map_ext_in. intros c Hc. now rewrite (H c Hc).
Qed.

(** A string of the shape of a normalised title is left alone. *)
Lemma normalize_title_fixed (y : str) :
  (forall c, In c y -> str_lower [c] = [c]) ->
  (forall c, In c y -> is_word c || is_space c = true) ->
  no_run y -> starts_clean y -> ends_clean y ->
  normalize_title (Some y) = y.
Proof.
  intros Hl Hw Hn Hs He. destruct y as [|d y]; [reflexivity|].
  unfold normalize_title.
  rewrite (lower_fixed _ Hl), (sub_nonword_fixed _ Hw).
  rewrite (sub_runs_fixed _ false Hn); [|discriminate].
  now apply strip_fixed.
Qed.

End NormalizeFacts.

Section NormalizeClaims.
Context {U : PyChar}.

(** C7.  Normalisation is idempotent: normalising a normalised title
    gives it back, for every title, absent, empty or not. *)
Theorem normalize_title_idempotent (x : option str) :
  normalize_title (Some (normalize_title x)) = normalize_title x.
Proof.
  destruct (normalize_title_shape x) as [Hn [Hs He]].
  apply normalize_title_fixed; auto.
  - intros c Hc. apply normalize_title_In in Hc.
    destruct Hc as [->|[_ [_ [s [_ Hc]]]]].
    + apply lower_space.
    + exact (lower_lowered s c Hc).
  - intros c Hc. apply normalize_title_In in Hc.
    destruct Hc as [->|[_ [Hw _]]].
    + unfold sp. now rewrite space_is_space, orb_true_r.
    + now rewrite Hw.
Qed.

End NormalizeClaims.

Section NormalizeShape.
Context {U : PyChar}.

Lemma shape_single_spaced (s : str) :
  no_run s -> starts_clean s -> ends_clean s -> single_spaced s.
Proof.
  intros Hn Hs He l c r -> Hc.
  pose proof (no_run_app_r _ _ Hn) as Hcr. simpl in Hcr. destruct Hcr as [Hcr _].
  destruct (Hcr Hc) as [-> Hr]. split; [reflexivity|]. split.
  - destruct l as [|x l] using rev_ind.
    + simpl in Hs. congruence.
    + exists l, x. split; [reflexivity|].
      rewrite <- app_assoc in Hn. apply no_run_app_r in Hn. simpl in Hn.
      destruct Hn as [Hx _]. destruct (is_space x) eqn:Ex; [|reflexivity].
      destruct (Hx eq_refl) as [_ Hx']. congruence.
  - destruct r as [|y r].
    + unfold ends_clean in He. rewrite rev_app_distr in He. simpl in He. congruence.
    + now exists y, r.
Qed.

End NormalizeShape.

Section NormalizeWords.
Context {U : PyChar}.

Lemma drop_while_all (s : str) :
  (forall c, In c s -> is_space c = true) -> drop_while is_space s = [].
Proof.
  induction s as [|d s IH]; intros H; simpl; [reflexivity|].
  rewrite (H d (or_introl eq_refl)). apply IH. intros c Hc. apply H. now right.
Qed.

Lemma strip_all_space (s : str) :
  (forall c, In c s -> is_space c = true) -> strip s = [].
Proof. intros H. unfold strip, lstrip. now rewrite (drop_while_all s H). Qed.

Lemma str_lower_nil : str_lower [] = [].
Proof. apply lower_fixed. intros c []. Qed.

Lemma normalize_title_by_lower (t : str) :
  normalize_title (Some t) = strip (sub_runs false (sub_nonword (str_lower t))).
Proof.
  destruct t as [|c t]; [|reflexivity].
  simpl. rewrite str_lower_nil. reflexivity.
Qed.

(** *** Kept characters and separators *)

Lemma kept_true (c : char) :
  kept c = true -> is_word c = true /\ is_space c = false.
Proof.
  unfold kept. intros H. apply andb_true_iff in H. destruct H as [Hw Hs].
  apply negb_true_iff in Hs. now split.
Qed.

(** What the first substitution makes of a separator is whitespace. *)
Lemma separator_becomes_space (c : char) :
  kept c = false -> is_space (if is_word c || is_space c then c else sp) = true.
Proof.
  unfold kept. destruct (is_word c), (is_space c) eqn:E; simpl; try discriminate;
    intros _; try exact E; apply space_is_space.
Qed.

Lemma words_cons (c : char) (s : str) :
  words (c :: s)
  = if kept c
    then match s with
         | d :: _ => if kept d then push c (words s) else [c] :: words s
         | [] => [[c]]
         end
    else words s.
Proof. destruct s; reflexivity. Qed.

Lemma words_kept (s : str) :
  Forall (fun w => w <> [] /\ forall c, In c w -> kept c = true) (words s).
Proof.
  induction s as [|c s IH]; [constructor|]. rewrite words_cons.
  destruct (kept c) eqn:K; [|exact IH].
  assert (H1 : [c] <> [] /\ forall x, In x [c] -> kept x = true).
  { split; [discriminate|]. intros x [<-|[]]. exact K. }
  destruct s as [|d s]; [constructor; [exact H1 | constructor]|].
  destruct (kept d); [|constructor; assumption].
  destruct (words (d :: s)) as [|w ws]; simpl; [constructor; [exact H1 | constructor]|].
  inversion IH as [|? ? [Hw Hk] Hws]; subst. constructor; [|exact Hws].
  split; [discriminate|]. intros x [<-|Hx]; [exact K | now apply Hk].
Qed.

Lemma words_head_kept (d : char) (s : str) : kept d = true -> words (d :: s) <> [].
Proof.
  intros K. rewrite words_cons, K. destruct s as [|e s]; [discriminate|].
  destruct (kept e); [|discriminate]. destruct (words (e :: s)); discriminate.
Qed.

Lemma join_push (sep : str) (c : char) (w : str) (ws : list str) :
  join sep ((c :: w) :: ws) = c :: join sep (w :: ws).
Proof. destruct ws; reflexivity. Qed.

Lemma join_cons (sep : str) (w : str) (ws : list str) :
  join sep (w :: ws)
  = w ++ match ws with [] => [] | _ :: _ => sep ++ join sep ws end.
Proof. destruct ws; simpl; [now rewrite app_nil_r | reflexivity]. Qed.

Lemma concat_push (c : char) (ws : list str) : concat (push c ws) = c :: concat ws.
Proof. destruct ws; reflexivity. Qed.

(** The words hold the kept characters, all of them and in their order. *)
Lemma words_concat (s : str) : concat (words s) = filter kept s.
Proof.
  induction s as [|c s IH]; [reflexivity|]. rewrite words_cons. cbn [filter].
  destruct (kept c) eqn:K; [|exact IH].
  destruct s as [|d s]; [reflexivity|].
  destruct (kept d) eqn:Kd.
  - now rewrite concat_push, IH.
  - cbn [concat app]. now rewrite IH.
Qed.

(** *** The two substitutions give the words, joined *)

(** After the two substitutions the words stand joined by single spaces, with
    at most one space before them and one after them. *)
Lemma sub_runs_words (s : str) :
  forall b, exists post,
    sub_runs b (sub_nonword s)
    = (if b then []
       else match s with
            | c :: _ => if kept c then [] else [sp]
            | [] => []
            end)
      ++ join [sp] (words s) ++ post
    /\ (post = [] \/ post = [sp])
    /\ (words s = [] -> post = []).
Proof.
  induction s as [|c s IH]; intros b.
  - exists []. destruct b; simpl; auto.
  - change (sub_nonword (c :: s))
      with ((if is_word c || is_space c then c else sp) :: sub_nonword s).
    rewrite words_cons. destruct (kept c) eqn:K.
    + destruct (kept_true c K) as [Hw Hs]. rewrite Hw. cbn [orb sub_runs].
      rewrite Hs. destruct (IH false) as [post [E [Hp Hn]]]. rewrite E. clear E IH.
      replace (if b then [] else @nil char) with (@nil char) by now destruct b.
      cbn [app]. destruct s as [|d s].
      * exists []. simpl in Hn. rewrite (Hn eq_refl). simpl. auto.
      * destruct (kept d) eqn:Kd.
        -- pose proof (words_head_kept d s Kd) as Hne.
           destruct (words (d :: s)) as [|w ws]; [congruence|].
           exists post. cbn [push app]. rewrite join_push.
           repeat split; [exact Hp | discriminate].
        -- destruct (words (d :: s)) as [|w ws].
           ++ rewrite (Hn eq_refl). exists [sp]. simpl.
              repeat split; [now right | discriminate].
           ++ exists post.
              change (join [sp] ([c] :: w :: ws)) with ([c] ++ [sp] ++ join [sp] (w :: ws)).
              cbn [app]. repeat split; [exact Hp | discriminate].
    + pose proof (separator_becomes_space c K) as Hs. cbn [sub_runs]. rewrite Hs.
      destruct (IH true) as [post [E [Hp Hn]]]. rewrite E. exists post.
      destruct b; cbn [app]; auto.
Qed.

Lemma word_ends_clean (w : str) :
  w <> [] -> (forall c, In c w -> is_space c = false) -> ends_clean w.
Proof.
  intros Hn Hc. unfold ends_clean, starts_clean.
  destruct (rev w) as [|c r] eqn:E; [exact I|].
  apply Hc. apply in_rev. rewrite E. now left.
Qed.

Lemma ends_clean_app (s1 s2 : str) : s2 <> [] -> ends_clean s2 -> ends_clean (s1 ++ s2).
Proof.
  intros Hn He. unfold ends_clean in *. rewrite rev_app_distr.
  destruct (rev s2) as [|c r] eqn:E; [|exact He].
  exfalso. apply Hn. rewrite <- (rev_involutive s2), E. reflexivity.
Qed.

Lemma join_words_clean (ws : list str) :
  Forall (fun w => w <> [] /\ forall c, In c w -> kept c = true) ws ->
  starts_clean (join [sp] ws) /\ ends_clean (join [sp] ws)
  /\ (ws <> [] -> join [sp] ws <> []).
Proof.
  induction 1 as [|w ws [Hn Hk] Hws IH].
  { split; [exact I|]. split; [exact I|]. intros H. now elim H. }
  assert (Hs : forall c, In c w -> is_space c = false).
  { intros c Hc. now destruct (kept_true c (Hk c Hc)). }
  rewrite join_cons. destruct w as [|c w]; [congruence|].
  split; [apply Hs; now left|]. split; [|discriminate].
  destruct ws as [|w2 ws]; [rewrite app_nil_r; now apply word_ends_clean|].
  destruct IH as [_ [He Hj]].
  apply ends_clean_app; [discriminate|].
  apply (ends_clean_app [sp]); [apply Hj; discriminate | exact He].
Qed.

Lemma strip_padded (pre body post : str) :
  pre = [] \/ pre = [sp] -> post = [] \/ post = [sp] -> (body = [] -> post = []) ->
  starts_clean body -> ends_clean body ->
  strip (pre ++ body ++ post) = body.
Proof.
  intros Hpre Hpost Hn Hs He. destruct body as [|c body].
  - rewrite (Hn eq_refl). cbn [app]. rewrite app_nil_r. apply strip_all_space.
    intros x Hx. destruct Hpre as [->| ->]; [destruct Hx|].
    destruct Hx as [<-|[]]. apply space_is_space.
  - assert (Hl : lstrip (pre ++ (c :: body) ++ post) = (c :: body) ++ post).
    { unfold lstrip. destruct Hpre as [->| ->]; cbn [app drop_while].
      - simpl in Hs. now rewrite Hs.
      - unfold sp at 1. rewrite space_is_space. simpl in Hs. now rewrite Hs. }
    unfold strip. rewrite Hl. unfold rstrip. rewrite rev_app_distr.
    assert (Hr : drop_while is_space (rev post ++ rev (c :: body)) = rev (c :: body)).
    { destruct Hpost as [->| ->]; cbn [rev app drop_while].
      - apply drop_while_fixed. exact He.
      - unfold sp at 1. rewrite space_is_space. apply drop_while_fixed. exact He. }
    rewrite Hr. apply rev_involutive.
Qed.

(** The normalised title is the words of the lower-cased title, joined by
    single spaces. *)
Lemma normalize_title_words (t : str) :
  normalize_title (Some t) = join [sp] (words (str_lower t)).
Proof.
  rewrite normalize_title_by_lower.
  destruct (sub_runs_words (str_lower t) false) as [post [E [Hp Hn]]]. rewrite E.
  destruct (join_words_clean _ (words_kept (str_lower t))) as [Hs [He Hj]].
  apply strip_padded; auto.
  - destruct (str_lower t) as [|c s]; [now left|]. destruct (kept c); auto.
  - intros Hb. apply Hn. destruct (words (str_lower t)) as [|w ws]; [reflexivity|].
    exfalso. apply Hj; [discriminate | exact Hb].
Qed.

(** *** The words can be read off the joined string *)

Lemma word_split (w1 : str) :
  forall w2 r1 r2,
    (forall c, In c w1 -> is_space c = false) ->
    (forall c, In c w2 -> is_space c = false) ->
    (r1 = [] \/ exists c r, r1 = c :: r /\ is_space c = true) ->
    (r2 = [] \/ exists c r, r2 = c :: r /\ is_space c = true) ->
    w1 ++ r1 = w2 ++ r2 -> w1 = w2 /\ r1 = r2.
Proof.
  induction w1 as [|c w1 IH]; intros w2 r1 r2 H1 H2 Hr1 Hr2 E.
  - destruct w2 as [|d w2]; [now split|]. exfalso. simpl in E.
    destruct Hr1 as [->|[x [r [-> Hx]]]]; [discriminate|].
    inversion E; subst. rewrite (H2 d (or_introl eq_refl)) in Hx. discriminate.
  - destruct w2 as [|d w2].
    + exfalso. simpl in E.
      destruct Hr2 as [->|[x [r [-> Hx]]]]; [discriminate|].
      inversion E; subst. rewrite (H1 x (or_introl eq_refl)) in Hx. discriminate.
    + simpl in E. inversion E; subst.
      destruct (IH w2 r1 r2) as [-> ->]; auto.
      * intros x Hx. apply H1. now right.
      * intros x Hx. apply H2. now right.
Qed.

Lemma join_words_inj (ws1 : list str) :
  forall ws2,
    Forall (fun w => w <> [] /\ forall c, In c w -> kept c = true) ws1 ->
    Forall (fun w => w <> [] /\ forall c, In c w -> kept c = true) ws2 ->
    join [sp] ws1 = join [sp] ws2 -> ws1 = ws2.
Proof.
  induction ws1 as [|w1 ws1 IH]; intros ws2 H1 H2 E.
  - destruct ws2 as [|w2 ws2]; [reflexivity|]. exfalso.
    destruct (join_words_clean _ H2) as [_ [_ Hj]]. apply Hj; [discriminate|].
    now rewrite <- E.
  - destruct ws2 as [|w2 ws2].
    + exfalso. destruct (join_words_clean _ H1) as [_ [_ Hj]].
      apply Hj; [discriminate | exact E].
    + inversion H1 as [|? ? [_ K1] F1]; inversion H2 as [|? ? [_ K2] F2]; subst.
      rewrite !join_cons in E. apply word_split in E.
      * destruct E as [-> E]. f_equal.
        destruct ws1 as [|x1 ws1], ws2 as [|x2 ws2]; try discriminate; [reflexivity|].
        apply IH; auto. now inversion E.
      * intros c Hc. now destruct (kept_true c (K1 c Hc)).
      * intros c Hc. now destruct (kept_true c (K2 c Hc)).
      * destruct ws1 as [|x1 ws1]; [now left|].
        right. exists sp, (join [sp] (x1 :: ws1)).
        split; [reflexivity | apply space_is_space].
      * destruct ws2 as [|x2 ws2]; [now left|].
        right. exists sp, (join [sp] (x2 :: ws2)).
        split; [reflexivity | apply space_is_space].
Qed.

End NormalizeWords.

Section NormalizeClaim5.
Context {U : PyChar}.

(** C5 (amended).  The pattern of the substitution is [[^\w\s]], and [\w]
    takes the underscore with the alphanumeric characters.  A character that
    is neither a word character nor whitespace is replaced by a space, not
    deleted: it parts two words as whitespace does.  The normalised title is
    the words of the lower-cased title, joined by single spaces, where the
    words are the maximal runs of word characters and hold every word
    character of the lower-cased title, in order.  So a normalised title
    holds word characters (alphanumeric or underscore) and spaces only, and
    every whitespace character in it is one space between two characters that
    are no whitespace. *)
Theorem normalize_title_word_characters_and_single_spaces (t : option str) :
  match t with
  | Some s =>
      normalize_title t = join [sp] (words (str_lower s))
      /\ concat (words (str_lower s)) = filter kept (str_lower s)
  | None => normalize_title t = []
  end
  /\ (forall c, In c (normalize_title t) -> is_word c = true \/ c = sp)
  /\ single_spaced (normalize_title t).
Proof.
  split; [|split].
  - destruct t as [s|]; [|reflexivity].
    split; [apply normalize_title_words | apply words_concat].
  - intros c Hc. apply normalize_title_In in Hc.
    destruct Hc as [->|[_ [Hw _]]]; [now right | now left].
  - destruct (normalize_title_shape t) as [Hn [Hs He]]. now apply shape_single_spaced.
Qed.

End NormalizeClaim5.

(** C5 (amended) on a title with hyphens: each hyphen becomes a space. *)
Lemma hyphens_become_spaces :
  normalize_title (Some (s2l "State-of-the-Art: a Survey"))
  = s2l "state of the art a survey"
  /\ words (s2l "state-of-the-art: a survey")
     = map s2l ["state"; "of"; "the"; "art"; "a"; "survey"]%string.
Proof. split; vm_compute; reflexivity. Qed.

(** C5, the claim as it stands fails on the ASCII title [a_b]: the underscore
    is neither alphanumeric nor a space, and it stays. *)
Lemma underscore_survives_normalization :
  normalize_title (Some (s2l "a_b")) = s2l "a_b"
  /\ ~ (forall c, In c (normalize_title (Some (s2l "a_b"))) ->
                  is_alnum c = true \/ c = " "%char).
Proof.
  split; [vm_compute; reflexivity|].
  intros H. destruct (H "_"%char) as [E|E].
  - vm_compute. tauto.
  - vm_compute in E. discriminate E.
  - discriminate E.
Qed.

(** ** Title extraction *)

Section ExtractorFacts.
Context {U : PyChar}.

(** One step of the scan, by whether the line survives. *)
Lemma scan_cons (i : nat) (line : str) (rest acc : list str) :
  scan i (line :: rest) acc =
  if survives line
  then if 2 <=? i then acc ++ [line] else scan (S i) rest (acc ++ [line])
  else scan (S i) rest acc.
Proof.
  unfold survives, discarded. simpl.
  destruct (re_not_title line); simpl; [reflexivity|].
  destruct (length line <? 10); simpl; [reflexivity|].
  destruct (re_front_matter line); simpl; [reflexivity|].
  rewrite length_app. simpl.
  replace (0 <? length acc + 1) with true by (symmetry; apply Nat.ltb_lt; lia).
  now rewrite andb_true_r.
Qed.

(** From the third line on the scan ends with the first line that survives. *)
Lemma scan_from_2 (lines : list str) :
  forall i acc, 2 <= i -> scan i lines acc = acc ++ firstn 1 (filter survives lines).
Proof.
  induction lines as [|line rest IH]; intros i acc Hi.
  - simpl. now rewrite app_nil_r.
  - rewrite scan_cons. simpl filter. destruct (survives line).
    + apply Nat.leb_le in Hi. now rewrite Hi.
    + apply IH. lia.
Qed.

Lemma scan_closed_form (lines : list str) :
  scan 0 lines [] =
  filter survives (firstn 2 lines) ++ firstn 1 (filter survives (skipn 2 lines)).
Proof.
  destruct lines as [|l0 [|l1 rest]].
  - reflexivity.
  - rewrite scan_cons. simpl. destruct (survives l0); reflexivity.
  - rewrite scan_cons.
    change (firstn 2 (l0 :: l1 :: rest)) with [l0; l1].
    change (skipn 2 (l0 :: l1 :: rest)) with rest.
    cbn [filter Nat.leb].
    destruct (survives l0); rewrite scan_cons; cbn [Nat.leb];
      destruct (survives l1); rewrite scan_from_2 by lia;
      cbn [app]; rewrite <- ?app_assoc; reflexivity.
Qed.

Lemma title_of_text_no_candidate (text : str) :
  potential_title_lines (nonempty_lines text) = [] ->
  length text <= 100 ->
  title_of_text text = [].
Proof.
  intros Hc Hl. unfold title_of_text. rewrite Hc. simpl.
  replace (100 <? length text) with false; [reflexivity|].
  symmetry. apply Nat.ltb_ge. exact Hl.
Qed.

End ExtractorFacts.

Section ExtractorClaims.
Context {U : PyChar}.

(** C4 (amended).  The stop test of the scan stands after the append, so it
    is made only when the inspected line survived the discard rules: of the
    first ten lines the scan keeps the survivors among the first two and the
    first survivor after them, and goes on over discarded lines until it finds
    that one, whether or not a candidate is there already. *)
Theorem scan_stops_at_third_line_survivor (lines : list str) :
  potential_title_lines lines =
  filter survives (firstn 2 (firstn 10 lines))
  ++ firstn 1 (filter survives (skipn 2 (firstn 10 lines))).
Proof. unfold potential_title_lines. apply scan_closed_form. Qed.

(** C9 (amended).  With a non-empty page text of at most 100 characters and
    no surviving candidate line, the extractor returns the empty string, on
    the first page and on the second page read after an empty first one. *)
Theorem no_candidate_short_text_gives_empty_string (text : str) (more : list page) :
  truthy text = true ->
  potential_title_lines (nonempty_lines text) = [] ->
  length text <= 100 ->
  extract_title_from_pdf (Returns (Returns text :: more)) = Some []
  /\ extract_title_from_pdf (Returns (Returns [] :: Returns text :: more)) = Some [].
Proof.
  intros Ht Hc Hl. unfold extract_title_from_pdf, extract_title_body. simpl.
  rewrite Ht. simpl. rewrite Ht. simpl.
  now rewrite (title_of_text_no_candidate text Hc Hl).
Qed.

End ExtractorClaims.

(** C4, the claim as it stands fails on [lines0]: a candidate is there after
    the third line, and the scan goes on to the fifth line and takes it, while
    the scan of the specification stops with the first line alone. *)
Lemma scan_differs_from_spec_scan :
  potential_title_lines lines0 = map s2l ["A Fast Method"; "For Widget Detection"]%string
  /\ scan_spec 0 (firstn 10 lines0) [] = map s2l ["A Fast Method"]%string
  /\ potential_title_lines lines0 <> scan_spec 0 (firstn 10 lines0) [].
Proof.
  split; [vm_compute; reflexivity|]. split; [vm_compute; reflexivity|].
  vm_compute. discriminate.
Qed.

(** C9, the claim as it stands fails on a page that reads [Abstract]: the
    text is not empty, no line survives, the text is short, and the extractor
    returns a string. *)
Lemma short_text_returns_string_not_None :
  truthy (s2l "Abstract") = true
  /\ potential_title_lines (nonempty_lines (s2l "Abstract")) = []
  /\ length (s2l "Abstract") <= 100
  /\ extract_title_from_pdf (Returns [Returns (s2l "Abstract")]) <> None.
Proof. repeat split; try (vm_compute; reflexivity); [vm_compute; lia | vm_compute; discriminate]. Qed.

(** C9 (amended) on the page that reads [Abstract]. *)
Lemma abstract_only_page_gives_empty_string :
  extract_title_from_pdf (Returns [Returns (s2l "Abstract")]) = Some []
  /\ extract_title_from_pdf (Returns [Returns []; Returns (s2l "Abstract")]) = Some [].
Proof.
  apply (no_candidate_short_text_gives_empty_string (U := AsciiChar) (s2l "Abstract") []).
  - reflexivity.
  - vm_compute. reflexivity.
  - vm_compute. lia.
Defined.

(** ** The sequence matcher *)

Section ChainB.
Context {A : Type} (eqb : A -> A -> bool).
Hypothesis eqb_spec : forall x y, reflect (x = y) (eqb x y).

Lemma elt_eqb_refl (x : A) : eqb x x = true.
Proof. destruct (eqb_spec x x); congruence. Qed.

Lemma elt_eqb_true (x y : A) : eqb x y = true -> x = y.
Proof. destruct (eqb_spec x y); congruence. Qed.

Lemma b2j_get_setdefault (d : list (A * list nat)) (elt : A) (i : nat) (x : A) :
  b2j_get eqb (setdefault_append eqb d elt i) x
  = if eqb elt x then b2j_get eqb d x ++ [i] else b2j_get eqb d x.
Proof.
  unfold b2j_get. induction d as [|[k idxs] d IH]; simpl.
  - destruct (eqb elt x); reflexivity.
  - destruct (eqb_spec k elt) as [->|Hn]; simpl.
    + destruct (eqb elt x); reflexivity.
    + destruct (eqb_spec k x) as [->|Hx].
      * destruct (eqb_spec elt x); [congruence | reflexivity].
      * exact IH.
Qed.

Lemma setdefault_keys (d : list (A * list nat)) (elt : A) (i : nat) (k : A) :
  In k (map fst (setdefault_append eqb d elt i)) -> k = elt \/ In k (map fst d).
Proof.
  induction d as [|[k0 idxs] d IH]; simpl.
  - intros [H|[]]. now left.
  - destruct (eqb k0 elt); simpl; intros [H|H]; auto.
    destruct (IH H); auto.
Qed.

Lemma setdefault_NoDup (d : list (A * list nat)) (elt : A) (i : nat) :
  NoDup (map fst d) -> NoDup (map fst (setdefault_append eqb d elt i)).
Proof.
  induction d as [|[k0 idxs] d IH]; simpl; intros H.
  - constructor; [intros [] | constructor].
  - inversion H as [|? ? Hk Hd]; subst.
    destruct (eqb_spec k0 elt) as [->|Hn]; simpl; [now constructor|].
    constructor; [|now apply IH].
    intros Hin. apply setdefault_keys in Hin. destruct Hin; [congruence | contradiction].
Qed.

Lemma chain_loop_NoDup (b : list A) :
  forall i d, NoDup (map fst d) -> NoDup (map fst (chain_loop eqb b i d)).
Proof.
  induction b as [|y b IH]; intros i d H; simpl; [exact H|].
  apply IH. now apply setdefault_NoDup.
Qed.

Lemma chain_loop_get (b : list A) (x : A) :
  forall i d, b2j_get eqb (chain_loop eqb b i d) x = b2j_get eqb d x ++ positions eqb x b i.
Proof.
  induction b as [|y b IH]; intros i d; simpl.
  - now rewrite app_nil_r.
  - rewrite IH, b2j_get_setdefault.
    destruct (eqb y x); [now rewrite <- app_assoc | reflexivity].
Qed.

Lemma dict_get_absent {V : Type} (d : list (A * V)) (x : A) :
  ~ In x (map fst d) -> dict_get eqb d x = None.
Proof.
  induction d as [|[k v] d IH]; simpl; intros H; [reflexivity|].
  destruct (eqb_spec k x) as [->|Hn]; [exfalso; apply H; now left|].
  apply IH. intros Hin. apply H. now right.
Qed.

Lemma filter_keys {V : Type} (f : A * V -> bool) (d : list (A * V)) (x : A) :
  In x (map fst (filter f d)) -> In x (map fst d).
Proof.
  intros H. apply in_map_iff in H. destruct H as [e [<- He]].
  apply filter_In in He. apply in_map. apply He.
Qed.

Lemma b2j_get_filter (f : list nat -> bool) (d : list (A * list nat)) (x : A) :
  NoDup (map fst d) ->
  b2j_get eqb (filter (fun e => f (snd e)) d) x
  = if f (b2j_get eqb d x) then b2j_get eqb d x else [].
Proof.
  unfold b2j_get. induction d as [|[k v] d IH]; simpl; intros H.
  - now destruct (f []).
  - inversion H as [|? ? Hk Hd]; subst.
    destruct (eqb_spec k x) as [->|Hn].
    + destruct (f v) eqn:E; simpl.
      * now rewrite elt_eqb_refl.
      * rewrite dict_get_absent; [reflexivity|].
        intros Hin. apply filter_keys in Hin. contradiction.
    + destruct (f v); simpl.
      * destruct (eqb_spec k x); [congruence|]. now apply IH.
      * now apply IH.
Qed.

(** What [b2j] holds for an element: its positions in [b], or nothing when the
    element is one of the deleted frequent ones. *)
Lemma chain_b_get (b : list A) (x : A) :
  b2j_get eqb (chain_b eqb b) x = if popular eqb b x then [] else positions eqb x b 0.
Proof.
  unfold chain_b, popular.
  destruct (200 <=? length b); cbn [andb].
  - rewrite (b2j_get_filter (fun idxs => negb (length b / 100 + 1 <? length idxs))).
    + rewrite chain_loop_get. change (b2j_get eqb [] x) with (@nil nat). cbn [app].
      destruct (length b / 100 + 1 <? length (positions eqb x b 0)); reflexivity.
    + apply chain_loop_NoDup. constructor.
  - now rewrite chain_loop_get.
Qed.

Lemma positions_In (x : A) (b : list A) :
  forall i j, In j (positions eqb x b i) <-> i <= j /\ nth_error b (j - i) = Some x.
Proof.
  induction b as [|y b IH]; intros i j; simpl.
  - split; [contradiction|]. intros [_ H]. destruct (j - i); discriminate.
  - destruct (eqb_spec y x) as [->|Hn]; simpl; rewrite ?IH.
    + split.
      * intros [<-|[H1 H2]].
        -- split; [lia|]. now rewrite Nat.sub_diag.
        -- split; [lia|]. replace (j - i) with (S (j - S i)) by lia. exact H2.
      * intros [H1 H2]. destruct (Nat.eq_dec i j) as [->|Hij]; [now left|].
        right. split; [lia|]. replace (j - i) with (S (j - S i)) in H2 by lia. exact H2.
    + split.
      * intros [H1 H2]. split; [lia|].
        replace (j - i) with (S (j - S i)) by lia. exact H2.
      * intros [H1 H2]. destruct (Nat.eq_dec i j) as [->|Hij].
        -- rewrite Nat.sub_diag in H2. simpl in H2. congruence.
        -- split; [lia|]. replace (j - i) with (S (j - S i)) in H2 by lia. exact H2.
Qed.

Lemma positions_sorted (x : A) (b : list A) :
  forall i, StronglySorted lt (positions eqb x b i).
Proof.
  induction b as [|y b IH]; intros i; simpl; [constructor|].
  destruct (eqb y x); [|apply IH].
  constructor; [apply IH|].
  apply Forall_forall. intros j Hj. apply positions_In in Hj. lia.
Qed.

(** The three facts the search needs about [b2j]. *)
Lemma chain_b_sound (b : list A) (x : A) (j : nat) :
  In j (b2j_get eqb (chain_b eqb b) x) -> nth_error b j = Some x.
Proof.
  rewrite chain_b_get. destruct (popular eqb b x); [contradiction|].
  intros H. apply positions_In in H. now rewrite Nat.sub_0_r in H.
Qed.

Lemma chain_b_sorted (b : list A) (x : A) :
  StronglySorted lt (b2j_get eqb (chain_b eqb b) x).
Proof.
  rewrite chain_b_get. destruct (popular eqb b x); [constructor | apply positions_sorted].
Qed.

Lemma chain_b_complete (b : list A) (x : A) (j : nat) :
  b2j_get eqb (chain_b eqb b) x <> [] -> nth_error b j = Some x ->
  In j (b2j_get eqb (chain_b eqb b) x).
Proof.
  rewrite chain_b_get. destruct (popular eqb b x); [congruence|].
  intros _ H. apply positions_In. rewrite Nat.sub_0_r. split; [lia | exact H].
Qed.

End ChainB.

Section SearchSound.
Context {A : Type} (eqb : A -> A -> bool).
Hypothesis eqb_spec : forall x y, reflect (x = y) (eqb x y).
Variables (a b : list A) (b2j : list (A * list nat)).
Hypothesis b2j_sound : forall x j, In j (b2j_get eqb b2j x) -> nth_error b j = Some x.

Lemma j2len_ok_nil (alo blo bhi i : nat) : j2len_ok a b alo blo bhi i [].
Proof. intros j H. simpl in H. lia. Qed.

Lemma valid_block_widen (alo ahi ahi' blo bhi : nat) (x : block) :
  ahi <= ahi' -> valid_block a b (alo, ahi, blo, bhi) x ->
  valid_block a b (alo, ahi', blo, bhi) x.
Proof. destruct x as [[i j] k]. unfold valid_block. intuition lia. Qed.

(** The length the inner loop computes at [j] is that of a match ending at
    [a[i]] and [b[j]]. *)
Lemma row_length_ok (alo blo bhi i j : nat) (x : A) (j2len : list (nat * nat)) :
  alo <= i -> blo <= j ->
  nth_error a i = Some x -> nth_error b j = Some x ->
  j2len_ok a b alo blo bhi i j2len ->
  let k := j2len_pred j2len j + 1 in
  k <= S i - alo /\ blo + k <= j + 1 /\ matches_at a b (S i - k) (j + 1 - k) k.
Proof.
  intros Hi Hj Ha Hb Hok k.
  destruct (Nat.eq_dec (j2len_pred j2len j) 0) as [E|E].
  - subst k. rewrite E. change (0 + 1) with 1. split; [lia | split; [lia|]].
    intros t Ht. exists x.
    replace (S i - 1 + t) with i by lia. replace (j + 1 - 1 + t) with j by lia.
    now split.
  - destruct j as [|j']; [simpl in E; congruence|]. simpl in E. simpl in k.
    destruct (Hok j') as [H1 [H2 [H3 H4]]]; [lia|].
    subst k. set (L := j2len_get j2len j') in *.
    split; [lia | split; [lia|]].
    intros t Ht. destruct (Nat.eq_dec t L) as [->|Ht'].
    + exists x. replace (S i - (L + 1) + L) with i by lia.
      replace (S j' + 1 - (L + 1) + L) with (S j') by lia. now split.
    + destruct (H4 t) as [y [Hy1 Hy2]]; [lia|]. exists y.
      replace (S i - (L + 1) + t) with (i - L + t) by lia.
      replace (S j' + 1 - (L + 1) + t) with (j' + 1 - L + t) by lia. now split.
Qed.

Lemma row_sound (alo blo bhi i : nat) (x : A) (js : list nat) :
  alo <= i -> nth_error a i = Some x ->
  (forall j, In j js -> nth_error b j = Some x) ->
  forall j2len newj2len best,
    j2len_ok a b alo blo bhi i j2len ->
    j2len_ok a b alo blo bhi (S i) newj2len ->
    valid_block a b (alo, S i, blo, bhi) best ->
    j2len_ok a b alo blo bhi (S i) (fst (row i blo bhi js j2len newj2len best))
    /\ valid_block a b (alo, S i, blo, bhi) (snd (row i blo bhi js j2len newj2len best)).
Proof.
  intros Hi Ha. induction js as [|j js IH]; intros Hjs j2len newj2len best Hok Hnew Hbest.
  - simpl. now split.
  - simpl. destruct (j <? blo) eqn:E1.
    + apply IH; auto. intros j0 H0. apply Hjs. now right.
    + destruct (bhi <=? j) eqn:E2; [simpl; now split|].
      apply Nat.ltb_ge in E1. apply Nat.leb_gt in E2.
      assert (Hb : nth_error b j = Some x) by (apply Hjs; now left).
      destruct (row_length_ok alo blo bhi i j x j2len Hi E1 Ha Hb Hok) as [K1 [K2 K3]].
      apply IH.
      * intros j0 H0. apply Hjs. now right.
      * exact Hok.
      * intros j0. cbn [j2len_get]. destruct (Nat.eqb_spec j j0) as [<-|Hn].
        -- intros _. split; [lia | split; [lia | split; [lia | exact K3]]].
        -- apply Hnew.
      * destruct (size best <? j2len_pred j2len j + 1); [|exact Hbest].
        unfold valid_block. split; [lia | split; [lia | split; [lia | split; [lia|]]]].
        replace (i + 1 - (j2len_pred j2len j + 1)) with (S i - (j2len_pred j2len j + 1)) by lia.
        exact K3.
Qed.

Lemma rows_sound (alo blo bhi n : nat) :
  forall i j2len best,
    alo <= i -> j2len_ok a b alo blo bhi i j2len ->
    valid_block a b (alo, i, blo, bhi) best ->
    valid_block a b (alo, i + n, blo, bhi) (rows eqb a b2j n i blo bhi j2len best).
Proof.
  induction n as [|n IH]; intros i j2len best Hi Hok Hbest; simpl.
  - now rewrite Nat.add_0_r.
  - replace (i + S n) with (S i + n) by lia.
    assert (Hbest' : valid_block a b (alo, S i, blo, bhi) best)
      by (eapply valid_block_widen; [|exact Hbest]; lia).
    destruct (nth_error a i) as [x|] eqn:Ha.
    + pose proof (row_sound alo blo bhi i x (b2j_get eqb b2j x) Hi Ha
                    (b2j_sound x) j2len [] best Hok (j2len_ok_nil _ _ _ _) Hbest') as H.
      destruct (row i blo bhi (b2j_get eqb b2j x) j2len [] best) as [newj2len best'].
      simpl in H. destruct H as [H1 H2]. apply IH; auto.
    + simpl. apply IH; auto. apply j2len_ok_nil.
Qed.

Lemma extend_left_sound (junk : bool) (alo ahi blo bhi : nat) :
  forall besti bestj bestsize,
    valid_block a b (alo, ahi, blo, bhi) (besti, bestj, bestsize) ->
    valid_block a b (alo, ahi, blo, bhi)
      (extend_left eqb a b junk alo blo besti bestj bestsize).
Proof.
  induction besti as [|i' IH]; intros bestj bestsize H; [exact H|].
  destruct bestj as [|j']; [exact H|]. cbn [extend_left].
  destruct (nth_error a i') as [x|] eqn:Ha; [|exact H].
  destruct (nth_error b j') as [y|] eqn:Hb; [|exact H].
  destruct ((alo <? S i') && (blo <? S j') && Bool.eqb (isbjunk eqb y) junk && eqb x y)
    eqn:E; [|exact H].
  apply andb_prop in E. destruct E as [E E4]. apply andb_prop in E. destruct E as [E E3].
  apply andb_prop in E. destruct E as [E1 E2].
  apply Nat.ltb_lt in E1, E2. apply (elt_eqb_true eqb eqb_spec) in E4. subst y.
  apply IH. unfold valid_block in *. destruct H as [H1 [H2 [H3 [H4 H5]]]].
  split; [lia | split; [lia | split; [lia | split; [lia|]]]].
  intros t Ht. destruct t as [|t].
  - exists x. rewrite !Nat.add_0_r. now split.
  - destruct (H5 t) as [z [Hz1 Hz2]]; [lia|]. exists z.
    replace (i' + S t) with (S i' + t) by lia.
    replace (j' + S t) with (S j' + t) by lia. now split.
Qed.

Lemma extend_right_sound (junk : bool) (alo ahi blo bhi besti bestj n : nat) :
  forall bestsize,
    valid_block a b (alo, ahi, blo, bhi) (besti, bestj, bestsize) ->
    valid_block a b (alo, ahi, blo, bhi)
      (extend_right eqb a b junk n ahi bhi besti bestj bestsize).
Proof.
  induction n as [|n IH]; intros bestsize H; [exact H|]. cbn [extend_right].
  destruct (nth_error a (besti + bestsize)) as [x|] eqn:Ha; [|exact H].
  destruct (nth_error b (bestj + bestsize)) as [y|] eqn:Hb; [|exact H].
  destruct ((besti + bestsize <? ahi) && (bestj + bestsize <? bhi)
            && Bool.eqb (isbjunk eqb y) junk && eqb x y) eqn:E; [|exact H].
  apply andb_prop in E. destruct E as [E E4]. apply andb_prop in E. destruct E as [E E3].
  apply andb_prop in E. destruct E as [E1 E2].
  apply Nat.ltb_lt in E1, E2. apply (elt_eqb_true eqb eqb_spec) in E4. subst y.
  apply IH. unfold valid_block in *. destruct H as [H1 [H2 [H3 [H4 H5]]]].
  split; [lia | split; [lia | split; [lia | split; [lia|]]]].
  intros t Ht. destruct (Nat.eq_dec t bestsize) as [->|Hn].
  - exists x. now split.
  - apply H5. lia.
Qed.

(** The block [find_longest_match] returns lies in the region it was asked
    about, and its two slices are equal. *)
Lemma find_longest_match_sound (alo ahi blo bhi : nat) :
  wf_region (alo, ahi, blo, bhi) ->
  valid_block a b (alo, ahi, blo, bhi) (find_longest_match eqb a b b2j alo ahi blo bhi).
Proof.
  intros [Ha Hb]. unfold find_longest_match.
  assert (H0 : valid_block a b (alo, ahi, blo, bhi)
                 (rows eqb a b2j (ahi - alo) alo blo bhi [] (alo, blo, 0))).
  { replace ahi with (alo + (ahi - alo)) at 1 by lia.
    apply rows_sound; [lia | apply j2len_ok_nil |].
    unfold valid_block. split; [lia | split; [lia | split; [lia | split; [lia|]]]].
    intros t Ht. lia. }
  destruct (rows eqb a b2j (ahi - alo) alo blo bhi [] (alo, blo, 0)) as [[i0 j0] k0].
  apply (extend_left_sound false) in H0.
  destruct (extend_left eqb a b false alo blo i0 j0 k0) as [[i1 j1] k1].
  apply (extend_right_sound false alo ahi blo bhi i1 j1 (ahi - (i1 + k1))) in H0.
  destruct (extend_right eqb a b false (ahi - (i1 + k1)) ahi bhi i1 j1 k1) as [[i2 j2] k2].
  apply (extend_left_sound true) in H0.
  destruct (extend_left eqb a b true alo blo i2 j2 k2) as [[i3 j3] k3].
  now apply extend_right_sound.
Qed.

End SearchSound.

Section QueueLoop.
Context {A : Type} (eqb : A -> A -> bool).
Hypothesis eqb_spec : forall x y, reflect (x = y) (eqb x y).
Variables (a b : list A) (b2j : list (A * list nat)).
Hypothesis b2j_sound : forall x j, In j (b2j_get eqb b2j x) -> nth_error b j = Some x.

Lemma total_app (l1 l2 : list block) : total (l1 ++ l2) = total l1 + total l2.
Proof. unfold total. now rewrite map_app, list_sum_app. Qed.

Lemma list_sum_cons (n : nat) (l : list nat) : list_sum (n :: l) = n + list_sum l.
Proof. reflexivity. Qed.

Lemma total_one (x : block) : total [x] = size x.
Proof. unfold total. simpl. lia. Qed.

Lemma blocks_loop_S (fuel : nat) (r : region) (q : list region) (acc : list block) :
  blocks_loop eqb a b b2j (S fuel) (r :: q) acc
  = let x := find_longest_match eqb a b b2j
               (fst (fst (fst r))) (snd (fst (fst r))) (snd (fst r)) (snd r) in
    if 0 <? size x
    then blocks_loop eqb a b b2j fuel (next_queue r x q) (acc ++ [x])
    else blocks_loop eqb a b b2j fuel q acc.
Proof.
  destruct r as [[[alo ahi] blo] bhi]. cbn [blocks_loop fst snd].
  destruct (find_longest_match eqb a b b2j alo ahi blo bhi) as [[i j] k].
  reflexivity.
Qed.

Lemma found_valid (r : region) :
  wf_region r ->
  valid_block a b r (find_longest_match eqb a b b2j
                       (fst (fst (fst r))) (snd (fst (fst r))) (snd (fst r)) (snd r)).
Proof.
  destruct r as [[[alo ahi] blo] bhi]. cbn [fst snd].
  now apply find_longest_match_sound.
Qed.

(** *** The queue after a block *)

Lemma next_queue_wf (r : region) (x : block) (q : list region) :
  valid_block a b r x -> Forall wf_region q -> Forall wf_region (next_queue r x q).
Proof.
  destruct r as [[[alo ahi] blo] bhi], x as [[i j] k].
  intros [H1 [H2 [H3 [H4 _]]]] Hq. unfold next_queue.
  destruct ((alo <? i) && (blo <? j)), ((i + k <? ahi) && (j + k <? bhi));
    repeat (constructor; [unfold wf_region; lia|]); exact Hq.
Qed.

Lemma next_queue_cap (r : region) (x : block) (q : list region) :
  valid_block a b r x ->
  list_sum (map cap (next_queue r x q))
  = cap (left_of r x) + cap (right_of r x) + list_sum (map cap q).
Proof.
  destruct r as [[[alo ahi] blo] bhi], x as [[i j] k].
  intros [H1 [H2 [H3 [H4 _]]]]. unfold next_queue, left_of, right_of.
  destruct (Nat.ltb_spec alo i), (Nat.ltb_spec blo j),
    (Nat.ltb_spec (i + k) ahi), (Nat.ltb_spec (j + k) bhi);
    unfold list_sum; cbn [andb map fold_right cap]; lia.
Qed.

Lemma next_queue_cost (r : region) (x : block) (q : list region) :
  valid_block a b r x -> 0 < size x ->
  list_sum (map cost (next_queue r x q)) + 1 <= cost r + list_sum (map cost q).
Proof.
  destruct r as [[[alo ahi] blo] bhi], x as [[i j] k].
  intros [H1 [H2 [H3 [H4 _]]]] Hk. unfold size in Hk. simpl in Hk. unfold next_queue.
  destruct ((alo <? i) && (blo <? j)), ((i + k <? ahi) && (j + k <? bhi));
    unfold list_sum; cbn [map fold_right cost]; lia.
Qed.

Lemma sides_cap (r : region) (x : block) :
  valid_block a b r x -> cap (left_of r x) + cap (right_of r x) + size x <= cap r.
Proof.
  destruct r as [[[alo ahi] blo] bhi], x as [[i j] k].
  intros [H1 [H2 [H3 [H4 _]]]]. unfold left_of, right_of, cap, size. simpl. lia.
Qed.

Lemma agree_empty (alo ahi blo bhi : nat) :
  ahi <= alo \/ bhi <= blo -> agree a b (alo, ahi, blo, bhi).
Proof. intros H Hsq t Ht. lia. Qed.

Lemma next_queue_agree (r : region) (x : block) (q : list region) :
  valid_block a b r x -> Forall (agree a b) (next_queue r x q) ->
  agree a b (left_of r x) /\ agree a b (right_of r x) /\ Forall (agree a b) q.
Proof.
  destruct r as [[[alo ahi] blo] bhi], x as [[i j] k].
  intros [H1 [H2 [H3 [H4 _]]]]. unfold next_queue, left_of, right_of.
  destruct (Nat.ltb_spec alo i), (Nat.ltb_spec blo j),
    (Nat.ltb_spec (i + k) ahi), (Nat.ltb_spec (j + k) bhi);
    cbn [andb]; intros Hq;
    repeat match goal with
           | H : Forall _ (_ :: _) |- _ => inversion H; subst; clear H
           end;
    (split; [|split]); try assumption; apply agree_empty; lia.
Qed.

(** A block between two parts that agree makes the whole region agree, when
    nothing of the region is left over. *)
Lemma sides_agree (r : region) (x : block) :
  valid_block a b r x ->
  agree a b (left_of r x) -> agree a b (right_of r x) ->
  cap (left_of r x) + cap (right_of r x) + size x = cap r ->
  agree a b r.
Proof.
  destruct r as [[[alo ahi] blo] bhi], x as [[i j] k].
  intros [H1 [H2 [H3 [H4 H5]]]] Hl Hr Hc Hsq t Ht.
  unfold left_of, right_of, cap, size, agree in *. simpl in Hc.
  destruct (Nat.lt_ge_cases t (i - alo)) as [C1|C1].
  - apply Hl; lia.
  - destruct (Nat.lt_ge_cases t (i - alo + k)) as [C2|C2].
    + destruct (H5 (t - (i - alo))) as [y [Hy1 Hy2]]; [lia|]. exists y.
      replace (alo + t) with (i + (t - (i - alo))) by lia.
      replace (blo + t) with (j + (t - (i - alo))) by lia. now split.
    + destruct (Hr ltac:(lia) (t - (i - alo + k))) as [y [Hy1 Hy2]]; [lia|]. exists y.
      replace (alo + t) with (i + k + (t - (i - alo + k))) by lia.
      replace (blo + t) with (j + k + (t - (i - alo + k))) by lia. now split.
Qed.

(** *** The loop *)

(** No more is matched than the regions on the queue can hold. *)
Lemma blocks_loop_bound (fuel : nat) :
  forall q acc res,
    Forall wf_region q -> blocks_loop eqb a b b2j fuel q acc = Some res ->
    total res <= total acc + list_sum (map cap q).
Proof.
  induction fuel as [|fuel IH]; intros q acc res Hwf Hrun.
  - destruct q as [|[[[alo ahi] blo] bhi] q]; simpl in Hrun; [|discriminate].
    inversion Hrun. simpl. lia.
  - destruct q as [|r q]; [inversion Hrun; simpl; lia|].
    rewrite blocks_loop_S in Hrun. cbv zeta in Hrun.
    inversion Hwf as [|? ? Hr Hq]; subst.
    pose proof (found_valid r Hr) as Hv.
    set (x := find_longest_match eqb a b b2j _ _ _ _) in *.
    rewrite map_cons, list_sum_cons.
    destruct (0 <? size x) eqn:Ek.
    + apply IH in Hrun; [|now apply next_queue_wf].
      rewrite total_app, total_one, (next_queue_cap r x q Hv) in Hrun.
      pose proof (sides_cap r x Hv). lia.
    + apply IH in Hrun; [|exact Hq]. lia.
Qed.

(** When all the regions can hold is matched, the two sides of every square
    region are equal. *)
Lemma blocks_loop_tight (fuel : nat) :
  forall q acc res,
    Forall wf_region q -> blocks_loop eqb a b b2j fuel q acc = Some res ->
    total res = total acc + list_sum (map cap q) ->
    Forall (agree a b) q.
Proof.
  induction fuel as [|fuel IH]; intros q acc res Hwf Hrun Ht.
  - destruct q as [|[[[alo ahi] blo] bhi] q]; simpl in Hrun; [constructor | discriminate].
  - destruct q as [|r q]; [constructor|].
    rewrite blocks_loop_S in Hrun. cbv zeta in Hrun.
    inversion Hwf as [|? ? Hr Hq]; subst.
    pose proof (found_valid r Hr) as Hv.
    set (x := find_longest_match eqb a b b2j _ _ _ _) in *.
    rewrite map_cons, list_sum_cons in Ht.
    destruct (0 <? size x) eqn:Ek.
    + pose proof (next_queue_wf r x q Hv Hq) as Hwf'.
      pose proof (blocks_loop_bound fuel _ _ _ Hwf' Hrun) as Hb.
      rewrite total_app, total_one, (next_queue_cap r x q Hv) in Hb.
      pose proof (sides_cap r x Hv) as Hs.
      assert (Hag : Forall (agree a b) (next_queue r x q)).
      { apply (IH _ _ _ Hwf' Hrun).
        rewrite total_app, total_one, (next_queue_cap r x q Hv). lia. }
      destruct (next_queue_agree r x q Hv Hag) as [Hl [Hrr Hqq]].
      constructor; [|exact Hqq].
      apply (sides_agree r x Hv Hl Hrr). lia.
    + pose proof (blocks_loop_bound fuel _ _ _ Hq Hrun) as Hb.
      constructor.
      * destruct r as [[[alo ahi] blo] bhi]. intros Hsq t Htt.
        cbn [cap] in Ht. lia.
      * apply (IH _ _ _ Hq Hrun). lia.
Qed.

(** The loop empties the queue within the cost of its regions. *)
Lemma blocks_loop_terminates (fuel : nat) :
  forall q acc,
    Forall wf_region q -> list_sum (map cost q) <= fuel ->
    exists res, blocks_loop eqb a b b2j fuel q acc = Some res.
Proof.
  induction fuel as [|fuel IH]; intros q acc Hwf Hc.
  - destruct q as [|[[[alo ahi] blo] bhi] q]; [now exists acc|].
    rewrite map_cons, list_sum_cons in Hc. cbn [cost] in Hc. lia.
  - destruct q as [|r q]; [now exists acc|].
    rewrite blocks_loop_S. cbv zeta.
    inversion Hwf as [|? ? Hr Hq]; subst.
    pose proof (found_valid r Hr) as Hv.
    set (x := find_longest_match eqb a b b2j _ _ _ _) in *.
    rewrite map_cons, list_sum_cons in Hc.
    destruct (0 <? size x) eqn:Ek.
    + apply IH; [now apply next_queue_wf|].
      apply Nat.ltb_lt in Ek. pose proof (next_queue_cost r x q Hv Ek). lia.
    + apply IH; [exact Hq|].
      destruct r as [[[alo ahi] blo] bhi]. cbn [cost] in Hc. lia.
Qed.

End QueueLoop.

Section Blocks.
Context {A : Type} (eqb : A -> A -> bool).
Hypothesis eqb_spec : forall x y, reflect (x = y) (eqb x y).

Lemma total_insert_block (x : block) (l : list block) :
  total (insert_block x l) = size x + total l.
Proof.
  induction l as [|y l IH]; [reflexivity|]. simpl.
  destruct (block_leb x y); [reflexivity|].
  unfold total in *. simpl. rewrite IH. lia.
Qed.

Lemma total_sort_blocks (l : list block) : total (sort_blocks l) = total l.
Proof.
  induction l as [|x l IH]; [reflexivity|]. simpl.
  rewrite total_insert_block, IH. reflexivity.
Qed.

Lemma total_collapse (blocks : list block) :
  forall i1 j1 k1 non_adjacent,
    total (collapse i1 j1 k1 blocks non_adjacent) = total non_adjacent + k1 + total blocks.
Proof.
  induction blocks as [|[[i2 j2] k2] blocks IH]; intros i1 j1 k1 na; simpl.
  - destruct (Nat.ltb_spec 0 k1).
    + rewrite total_app, total_one. unfold total, size. simpl. lia.
    + unfold total. simpl. lia.
  - destruct ((i1 + k1 =? i2) && (j1 + k1 =? j2)); rewrite IH.
    + unfold total, size. simpl. lia.
    + destruct (Nat.ltb_spec 0 k1).
      * rewrite total_app, total_one. unfold total, size. simpl. lia.
      * unfold total, size. simpl. lia.
Qed.

(** The queue loop ends on the fuel [raw_blocks] gives it. *)
Lemma raw_blocks_defined (a b : list A) : exists mb, raw_blocks eqb a b = Some mb.
Proof.
  unfold raw_blocks.
  apply (blocks_loop_terminates eqb eqb_spec a b (chain_b eqb b)).
  - intros x j. apply (chain_b_sound eqb eqb_spec).
  - constructor; [unfold wf_region; lia | constructor].
  - simpl. lia.
Qed.

(** Sorting and joining the blocks leaves the matched total as it is. *)
Lemma matched_total (a b : list A) (mb : list block) :
  raw_blocks eqb a b = Some mb -> total (get_matching_blocks eqb a b) = total mb.
Proof.
  intros H. unfold get_matching_blocks. rewrite H.
  rewrite total_app, total_collapse, total_sort_blocks, total_one.
  unfold total, size. simpl. lia.
Qed.

Lemma matched_bound (a b : list A) :
  total (get_matching_blocks eqb a b) <= Nat.min (length a) (length b).
Proof.
  destruct (raw_blocks_defined a b) as [mb H]. rewrite (matched_total a b mb H).
  unfold raw_blocks in H.
  apply (blocks_loop_bound eqb eqb_spec a b (chain_b eqb b)) in H.
  - unfold total at 2 in H. simpl in H. lia.
  - intros x j. apply (chain_b_sound eqb eqb_spec).
  - constructor; [unfold wf_region; lia | constructor].
Qed.

Lemma matches_at_all_eq (a b : list A) :
  length a = length b -> matches_at a b 0 0 (length a) -> a = b.
Proof.
  intros Hl Hm. apply nth_error_ext. intros n.
  destruct (Nat.lt_ge_cases n (length a)) as [H|H].
  - destruct (Hm n H) as [x [H1 H2]]. simpl in H1, H2. congruence.
  - rewrite (proj2 (nth_error_None a n) H).
    symmetry. apply nth_error_None. lia.
Qed.

(** Sequences of one length that are matched in full are equal. *)
Lemma matched_all_eq (a b : list A) :
  length a = length b -> total (get_matching_blocks eqb a b) = length a -> a = b.
Proof.
  intros Hl Ht. destruct (raw_blocks_defined a b) as [mb H].
  rewrite (matched_total a b mb H) in Ht. unfold raw_blocks in H.
  apply (blocks_loop_tight eqb eqb_spec a b (chain_b eqb b)) in H.
  - inversion H as [|? ? Hag _]; subst. apply matches_at_all_eq; [exact Hl|].
    unfold agree in Hag. rewrite Nat.sub_0_r in Hag. apply Hag. lia.
  - intros x j. apply (chain_b_sound eqb eqb_spec).
  - constructor; [unfold wf_region; lia | constructor].
  - unfold total at 2. simpl. lia.
Qed.

End Blocks.

Section Diagonal.
Context {A : Type} (eqb : A -> A -> bool).
Hypothesis eqb_spec : forall x y, reflect (x = y) (eqb x y).
Variable s : list A.

Lemma indexed_match_sym (i j : nat) : indexed_match eqb s i j = indexed_match eqb s j i.
Proof.
  unfold indexed_match.
  destruct (nth_error s i) as [x|], (nth_error s j) as [y|]; try reflexivity.
  destruct (eqb_spec x y) as [->|Hn].
  - now rewrite (elt_eqb_refl eqb eqb_spec).
  - destruct (eqb_spec y x); [congruence | reflexivity].
Qed.

Lemma indexed_match_diag (i j : nat) :
  indexed_match eqb s i j = true -> indexed_match eqb s i i = true.
Proof.
  unfold indexed_match.
  destruct (nth_error s i) as [x|]; [|discriminate].
  destruct (nth_error s j) as [y|]; [|discriminate].
  intros H. apply andb_prop in H. destruct H as [_ H].
  now rewrite (elt_eqb_refl eqb eqb_spec), H.
Qed.

Lemma indexed_match_intro (i j : nat) (x : A) :
  nth_error s i = Some x -> nth_error s j = Some x ->
  b2j_get eqb (chain_b eqb s) x <> [] -> indexed_match eqb s i j = true.
Proof.
  intros Hi Hj Hn. unfold indexed_match. rewrite Hi, Hj, (elt_eqb_refl eqb eqb_spec).
  destruct (b2j_get eqb (chain_b eqb s) x); [congruence | reflexivity].
Qed.

Lemma indexed_match_elim (i j : nat) (x : A) :
  nth_error s i = Some x -> indexed_match eqb s i j = true ->
  nth_error s j = Some x /\ b2j_get eqb (chain_b eqb s) x <> [].
Proof.
  intros Hi. unfold indexed_match. rewrite Hi.
  destruct (nth_error s j) as [y|]; [|discriminate].
  intros H. apply andb_prop in H. destruct H as [H1 H2].
  apply (elt_eqb_true eqb eqb_spec) in H1. subst y. split; [reflexivity|].
  destruct (b2j_get eqb (chain_b eqb s) x); [discriminate | congruence].
Qed.

Lemma run_length_sym (i : nat) : forall j, run_length eqb s i j = run_length eqb s j i.
Proof.
  induction i as [|i IH]; intros [|j]; simpl; try reflexivity.
  rewrite (indexed_match_sym i j), IH. reflexivity.
Qed.

Lemma run_length_le_diag (i : nat) :
  forall j, run_length eqb s i j <= run_length eqb s i i.
Proof.
  induction i as [|i IH]; intros [|j]; simpl; try lia.
  destruct (indexed_match eqb s i j) eqn:E; [|lia].
  rewrite (indexed_match_diag i j E). specialize (IH j). lia.
Qed.

Lemma run_length_le (i : nat) : forall j, run_length eqb s i j <= i.
Proof.
  induction i as [|i IH]; intros [|j]; simpl; try lia.
  destruct (indexed_match eqb s i j); [|lia]. specialize (IH j). lia.
Qed.

(** The length the inner loop computes is the run length. *)
Lemma j2len_pred_run (i j : nat) (j2len : list (nat * nat)) :
  (forall j', j2len_get j2len j' = run_length eqb s i (S j')) ->
  indexed_match eqb s i j = true ->
  j2len_pred j2len j + 1 = run_length eqb s (S i) (S j).
Proof.
  intros H E. simpl. rewrite E. destruct j as [|j]; simpl.
  - destruct i; reflexivity.
  - rewrite H. simpl. lia.
Qed.

(** One row of the search of a sequence in itself: the best block stays on
    the diagonal. *)
Lemma row_diag (i : nat) (x : A) :
  nth_error s i = Some x -> b2j_get eqb (chain_b eqb s) x <> [] ->
  forall js j2len newj2len d bs,
    StronglySorted lt js ->
    (forall j, In j js -> nth_error s j = Some x) ->
    (forall j, j2len_get j2len j = run_length eqb s i (S j)) ->
    (forall j, ~ In j js -> j2len_get newj2len j = run_length eqb s (S i) (S j)) ->
    d + bs <= S i ->
    (forall i' j', i' <= i -> run_length eqb s i' j' <= bs) ->
    In i js \/ run_length eqb s (S i) (S i) <= bs ->
    exists newj2len' d' bs',
      row i 0 (length s) js j2len newj2len (d, d, bs) = (newj2len', (d', d', bs'))
      /\ (forall j, j2len_get newj2len' j = run_length eqb s (S i) (S j))
      /\ d' + bs' <= S i
      /\ (forall i' j', i' <= S i -> run_length eqb s i' j' <= bs').
Proof.
  intros Hx Hnn. induction js as [|j js IH];
    intros j2len newj2len d bs Hs Hjs Hold Hnew Hd Hbs Hi.
  - exists newj2len, d, bs. simpl. split; [reflexivity|].
    split; [intros j; apply Hnew; tauto|]. split; [exact Hd|].
    intros i' j' Hi'. destruct Hi as [[]|Hi].
    destruct (Nat.eq_dec i' (S i)) as [->|Hne]; [|apply Hbs; lia].
    pose proof (run_length_le_diag (S i) j'). lia.
  - inversion Hs as [|? ? Hs' Hlt]; subst.
    assert (Hj : nth_error s j = Some x) by (apply Hjs; now left).
    assert (Hjn : j < length s) by (apply nth_error_Some; congruence).
    assert (Em : indexed_match eqb s i j = true) by (now apply (indexed_match_intro i j x)).
    pose proof (j2len_pred_run i j j2len Hold Em) as Hk.
    cbn [row]. change (j <? 0) with false. cbn iota.
    replace (length s <=? j) with false by (symmetry; apply Nat.leb_gt; exact Hjn).
    rewrite Hk. cbn [size snd].
    set (k := run_length eqb s (S i) (S j)) in *.
    assert (Hnew' : forall j0, ~ In j0 js ->
              j2len_get ((j, k) :: newj2len) j0 = run_length eqb s (S i) (S j0)).
    { intros j0 H0. cbn [j2len_get]. destruct (Nat.eqb_spec j j0) as [<-|Hne]; [reflexivity|].
      apply Hnew. intros [H|H]; [congruence | contradiction]. }
    assert (Hjs' : forall j0, In j0 js -> nth_error s j0 = Some x)
      by (intros j0 H0; apply Hjs; now right).
    destruct (Nat.ltb_spec bs k) as [Hlt'|Hge].
    + assert (j = i).
      { destruct (Nat.lt_trichotomy j i) as [C|[C|C]]; [|exact C|].
        - exfalso. unfold k in Hlt'. rewrite run_length_sym in Hlt'.
          specialize (Hbs (S j) (S i) C). lia.
        - exfalso. destruct Hi as [[Hi|Hi]|Hi]; [lia | |].
          + rewrite Forall_forall in Hlt. specialize (Hlt i Hi). lia.
          + pose proof (run_length_le_diag (S i) (S j)). unfold k in Hlt'. lia. }
      subst j. pose proof (run_length_le (S i) (S i)) as Hle. fold k in Hle.
      apply IH; auto; try lia.
      intros i' j' Hi'. specialize (Hbs i' j' Hi'). lia.
    + apply IH; auto.
      destruct Hi as [[Hi|Hi]|Hi]; [subst j; right; exact Hge | now left | now right].
Qed.

Lemma run_length_unindexed (i : nat) (x : A) :
  nth_error s i = Some x -> b2j_get eqb (chain_b eqb s) x = [] ->
  forall j, run_length eqb s (S i) j = 0.
Proof.
  intros Hx Hn [|j]; [reflexivity|]. simpl.
  destruct (indexed_match eqb s i j) eqn:E; [|reflexivity].
  destruct (indexed_match_elim i j x Hx E) as [_ H]. contradiction.
Qed.

Lemma rows_diag (cnt : nat) :
  forall i j2len d bs,
    i + cnt = length s ->
    (forall j, j2len_get j2len j = run_length eqb s i (S j)) ->
    d + bs <= i ->
    (forall i' j', i' <= i -> run_length eqb s i' j' <= bs) ->
    exists d' bs',
      rows eqb s (chain_b eqb s) cnt i 0 (length s) j2len (d, d, bs) = (d', d', bs')
      /\ d' + bs' <= length s.
Proof.
  induction cnt as [|cnt IH]; intros i j2len d bs Hi Hold Hd Hbs.
  - exists d, bs. split; [reflexivity | lia].
  - cbn [rows].
    destruct (nth_error s i) as [x|] eqn:Hx;
      [|apply nth_error_None in Hx; lia].
    destruct (b2j_get eqb (chain_b eqb s) x) as [|j0 js0] eqn:Hl.
    + cbn [row]. apply IH; try lia.
      * intros j. now rewrite (run_length_unindexed i x Hx Hl).
      * intros i' j' Hi'. destruct (Nat.eq_dec i' (S i)) as [->|Hne]; [|apply Hbs; lia].
        rewrite (run_length_unindexed i x Hx Hl). lia.
    + assert (Hnn : b2j_get eqb (chain_b eqb s) x <> []) by (rewrite Hl; discriminate).
      rewrite <- Hl.
      destruct (row_diag i x Hx Hnn (b2j_get eqb (chain_b eqb s) x) j2len [] d bs)
        as [newj2len' [d' [bs' [Hrow [H1 [H2 H3]]]]]]; auto; try lia.
      * apply (chain_b_sorted eqb eqb_spec).
      * intros j. apply (chain_b_sound eqb eqb_spec).
      * intros j Hj. simpl.
        destruct (indexed_match eqb s i j) eqn:E; [|reflexivity].
        destruct (indexed_match_elim i j x Hx E) as [Hjx _].
        exfalso. apply Hj. now apply (chain_b_complete eqb eqb_spec).
      * left. now apply (chain_b_complete eqb eqb_spec).
      * rewrite Hrow. apply IH; auto; lia.
Qed.

Lemma extend_left_diag (d : nat) :
  forall bs, d + bs <= length s ->
             extend_left eqb s s false 0 0 d d bs = (0, 0, d + bs).
Proof.
  induction d as [|d IH]; intros bs H; [reflexivity|]. cbn [extend_left].
  destruct (nth_error s d) as [x|] eqn:Hx; [|apply nth_error_None in Hx; lia].
  change (isbjunk eqb x) with false.
  rewrite (elt_eqb_refl eqb eqb_spec). cbn [Nat.ltb Nat.leb Bool.eqb andb].
  rewrite IH by lia. f_equal. lia.
Qed.

Lemma extend_right_diag (cnt : nat) :
  forall bs, bs + cnt = length s ->
             extend_right eqb s s false cnt (length s) (length s) 0 0 bs = (0, 0, length s).
Proof.
  induction cnt as [|cnt IH]; intros bs H.
  - cbn [extend_right]. repeat f_equal. lia.
  - cbn [extend_right]. cbn [Nat.add].
    destruct (nth_error s bs) as [x|] eqn:Hx; [|apply nth_error_None in Hx; lia].
    change (isbjunk eqb x) with false.
    rewrite (elt_eqb_refl eqb eqb_spec).
    replace (bs <? length s) with true by (symmetry; apply Nat.ltb_lt; lia).
    cbn [Bool.eqb andb]. apply IH. lia.
Qed.

(** Searching a sequence in itself finds the whole of it. *)
Lemma find_longest_match_diag :
  find_longest_match eqb s s (chain_b eqb s) 0 (length s) 0 (length s) = (0, 0, length s).
Proof.
  unfold find_longest_match. rewrite Nat.sub_0_r.
  destruct (rows_diag (length s) 0 [] 0 0) as [d [bs [Hr Hd]]]; try lia.
  - reflexivity.
  - intros i' j' Hi'. replace i' with 0 by lia. simpl. lia.
  - rewrite Hr. rewrite (extend_left_diag d bs Hd).
    rewrite (extend_right_diag (length s - (0 + (d + bs))) (d + bs)) by lia.
    cbn [extend_left]. rewrite Nat.add_0_l, Nat.sub_diag. reflexivity.
Qed.

Lemma blocks_loop_done (b2j : list (A * list nat)) (a b : list A) (fuel : nat)
  (acc : list block) :
  blocks_loop eqb a b b2j fuel [] acc = Some acc.
Proof. destruct fuel; reflexivity. Qed.

Lemma raw_blocks_diag :
  raw_blocks eqb s s = Some (if 0 <? length s then [(0, 0, length s)] else []).
Proof.
  unfold raw_blocks. replace (2 * length s + 1) with (S (2 * length s)) by lia.
  cbn [blocks_loop]. rewrite find_longest_match_diag.
  destruct (0 <? length s) eqn:E.
  - change (0 <? 0) with false. rewrite Nat.add_0_l, Nat.ltb_irrefl.
    cbn [andb app]. apply blocks_loop_done.
  - apply blocks_loop_done.
Qed.

(** A sequence compared with itself is matched in full. *)
Lemma matched_diag : total (get_matching_blocks eqb s s) = length s.
Proof.
  rewrite (matched_total eqb s s _ raw_blocks_diag).
  destruct (Nat.ltb_spec 0 (length s)).
  - apply total_one.
  - unfold total. simpl. lia.
Qed.

End Diagonal.

Section RatioFacts.
Context {A : Type} (eqb : A -> A -> bool).
Hypothesis eqb_spec : forall x y, reflect (x = y) (eqb x y).

Lemma Zpos_of_nat (n : nat) : 0 < n -> Zpos (Pos.of_nat n) = Z.of_nat n.
Proof. intros H. lia. Qed.

Lemma calculate_ratio_one (m len : nat) :
  2 * m <= len -> ((calculate_ratio m len == 1)%Q <-> 2 * m = len).
Proof.
  intros Hb. unfold calculate_ratio. destruct (Nat.eqb_spec len 0) as [->|Hn].
  - split; [intros _; lia | intros _; reflexivity].
  - unfold Qeq. cbn [Qnum Qden]. rewrite Zpos_of_nat by lia. lia.
Qed.

Lemma calculate_ratio_bounds (m len : nat) :
  2 * m <= len -> (0 <= calculate_ratio m len /\ calculate_ratio m len <= 1)%Q.
Proof.
  intros Hb. unfold calculate_ratio. destruct (Nat.eqb_spec len 0) as [->|Hn].
  - split; unfold Qle; simpl; lia.
  - unfold Qle. cbn [Qnum Qden]. rewrite Zpos_of_nat by lia. lia.
Qed.

Lemma ratio_total (a b : list A) :
  ratio eqb a b
  = calculate_ratio (total (get_matching_blocks eqb a b)) (length a + length b).
Proof. reflexivity. Qed.

Lemma matched_twice (a b : list A) :
  2 * total (get_matching_blocks eqb a b) <= length a + length b.
Proof. pose proof (matched_bound eqb eqb_spec a b). lia. Qed.

(** The ratio is 1 for equal sequences and for no others. *)
Lemma ratio_one_iff (a b : list A) : (ratio eqb a b == 1)%Q <-> a = b.
Proof.
  rewrite ratio_total, (calculate_ratio_one _ _ (matched_twice a b)). split.
  - intros H. pose proof (matched_bound eqb eqb_spec a b) as Hb.
    apply (matched_all_eq eqb eqb_spec); lia.
  - intros <-. rewrite (matched_diag eqb eqb_spec). lia.
Qed.

(** The ratio lies between 0 and 1, in either order of the arguments. *)
Lemma ratio_bounds (a b : list A) : (0 <= ratio eqb a b /\ ratio eqb a b <= 1)%Q.
Proof. rewrite ratio_total. apply calculate_ratio_bounds, matched_twice. Qed.

(** With an empty sequence on either side nothing is matched. *)
Lemma ratio_nil (a : list A) : ratio eqb a [] = ratio eqb [] a.
Proof.
  rewrite !ratio_total.
  pose proof (matched_bound eqb eqb_spec a []) as H1.
  pose proof (matched_bound eqb eqb_spec [] a) as H2.
  simpl length in *. rewrite Nat.min_0_r in H1. rewrite Nat.min_0_l in H2.
  replace (total (get_matching_blocks eqb a [])) with 0 by lia.
  replace (total (get_matching_blocks eqb [] a)) with 0 by lia.
  now rewrite Nat.add_0_r.
Qed.

End RatioFacts.

Section RatioClaims.
Context {U : PyChar}.

(** C1 (amended).  The ratio depends on the order of its two arguments.  What
    a swap keeps: whether the ratio is 1, and the ratio itself when the two
    strings are equal or one of them is empty. *)
Theorem similarity_under_swap (a b : str) :
  ((ratio char_eqb a b == 1)%Q <-> (ratio char_eqb b a == 1)%Q)
  /\ (a = b \/ a = [] \/ b = [] -> (ratio char_eqb a b == ratio char_eqb b a)%Q).
Proof.
  split.
  - rewrite !(ratio_one_iff char_eqb char_eqb_spec). split; congruence.
  - intros [-> | [-> | ->]]; try reflexivity.
    + now rewrite (ratio_nil char_eqb char_eqb_spec).
    + now rewrite (ratio_nil char_eqb char_eqb_spec).
Qed.

(** C3.  The similarity of a string with itself is 1, and the similarity of
    two strings is 1 only when they are the same string. *)
Theorem similarity_one_exactly_for_identical :
  (forall s : str, (ratio char_eqb s s == 1)%Q)
  /\ (forall a b : str, (ratio char_eqb a b == 1)%Q -> a = b).
Proof.
  split.
  - intros s. now apply (ratio_one_iff char_eqb char_eqb_spec).
  - intros a b. apply (ratio_one_iff char_eqb char_eqb_spec).
Qed.

End RatioClaims.

(** C1, the claim as it stands fails on the normalised titles [tide] and
    [diet]: the ratio is 1/4 in one order and 1/2 in the other. *)
Lemma ratio_depends_on_argument_order :
  normalize_title (Some (s2l "tide")) = s2l "tide"
  /\ normalize_title (Some (s2l "diet")) = s2l "diet"
  /\ ~ (ratio char_eqb (s2l "tide") (s2l "diet")
        == ratio char_eqb (s2l "diet") (s2l "tide"))%Q.
Proof.
  split; [vm_compute; reflexivity|]. split; [vm_compute; reflexivity|].
  intros H. vm_compute in H. discriminate H.
Qed.

(** ** The matcher *)

Section MatcherFacts.
Context {U : PyChar}.

Lemma str_eqb_spec (s t : str) : reflect (s = t) (str_eqb s t).
Proof.
  revert t. induction s as [|c s IH]; intros [|d t]; simpl; try (constructor; congruence).
  destruct (char_eqb_spec c d) as [->|Hn]; simpl.
  - destruct (IH t) as [->|Hn]; constructor; congruence.
  - constructor. congruence.
Qed.

Lemma truthy_true (s : str) : truthy s = true <-> s <> [].
Proof. destruct s; simpl; split; congruence. Qed.

(** *** The index of folder A *)

Lemma dict_set_In (d : list (str * title_info)) (k : str) (v : title_info)
  (k' : str) (v' : title_info) :
  In (k', v') (dict_set d k v) -> (k' = k /\ v' = v) \/ In (k', v') d.
Proof.
  induction d as [|[k0 v0] d IH]; simpl.
  - intros [H|[]]. left. now inversion H.
  - destruct (str_eqb_spec k0 k) as [->|Hn]; simpl.
    + intros [H|H]; [left; now inversion H | right; now right].
    + intros [H|H]; [right; now left|].
      destruct (IH H) as [?|?]; [now left | right; now right].
Qed.

Lemma dict_set_key (d : list (str * title_info)) (k : str) (v : title_info) :
  In (k, v) (dict_set d k v).
Proof.
  induction d as [|[k0 v0] d IH]; simpl; [now left|].
  destruct (str_eqb_spec k0 k) as [->|Hn]; simpl; [now left | now right].
Qed.

Lemma dict_set_keeps (d : list (str * title_info)) (k : str) (v : title_info)
  (k' : str) :
  (exists v', In (k', v') d) -> exists v', In (k', v') (dict_set d k v).
Proof.
  induction d as [|[k0 v0] d IH]; simpl; intros [v' H]; [contradiction|].
  destruct (str_eqb_spec k0 k) as [->|Hn]; simpl.
  - destruct H as [H|H]; [inversion H; subst; exists v; now left | exists v'; now right].
  - destruct H as [H|H]; [exists v'; now left|].
    destruct IH as [v'' H'']; [now exists v'|]. exists v''. now right.
Qed.

Lemma index_step_from_file (files : list pdf_file) (d : list (str * title_info))
  (f : pdf_file) :
  In f files -> Forall (from_file files) d -> Forall (from_file files) (index_step d f).
Proof.
  intros Hf Hd. unfold index_step.
  destruct (is_pdf f) eqn:Ep; [|exact Hd].
  destruct (extract_title_from_pdf (content f)) as [title|] eqn:Ee; [|exact Hd].
  destruct (truthy title) eqn:Et; [|exact Hd].
  apply Forall_forall. intros [k v] H. apply dict_set_In in H.
  destruct H as [[-> ->]|H].
  - exists f. simpl. repeat split; auto. now apply truthy_true.
  - rewrite Forall_forall in Hd. now apply Hd.
Qed.

Lemma fold_index_from_file (files fs : list pdf_file) :
  forall d, incl fs files -> Forall (from_file files) d ->
            Forall (from_file files) (fold_left index_step fs d).
Proof.
  induction fs as [|f fs IH]; intros d Hi Hd; simpl; [exact Hd|].
  apply IH.
  - intros x Hx. apply Hi. now right.
  - apply index_step_from_file; [apply Hi; now left | exact Hd].
Qed.

Lemma build_index_from_file (files : list pdf_file) :
  Forall (from_file files) (build_index files).
Proof. apply fold_index_from_file; [apply incl_refl | constructor]. Qed.

Lemma index_step_keeps (d : list (str * title_info)) (f : pdf_file) (k : str) :
  (exists v, In (k, v) d) -> exists v, In (k, v) (index_step d f).
Proof.
  intros H. unfold index_step.
  destruct (is_pdf f); [|exact H].
  destruct (extract_title_from_pdf (content f)) as [title|]; [|exact H].
  destruct (truthy title); [|exact H].
  now apply dict_set_keeps.
Qed.

Lemma fold_index_keeps (fs : list pdf_file) (k : str) :
  forall d, (exists v, In (k, v) d) -> exists v, In (k, v) (fold_left index_step fs d).
Proof.
  induction fs as [|f fs IH]; intros d H; simpl; [exact H|].
  apply IH. now apply index_step_keeps.
Qed.

Lemma fold_index_has_key (fs : list pdf_file) (f : pdf_file) (t : str) :
  forall d, In f fs -> has_title f t ->
            exists v, In (rel_path f, v) (fold_left index_step fs d).
Proof.
  induction fs as [|g fs IH]; intros d Hf Ht; simpl; [contradiction|].
  destruct Hf as [->|Hf]; [|now apply IH].
  apply fold_index_keeps. destruct Ht as [Hp [He Hn]].
  unfold index_step. rewrite Hp, He.
  apply truthy_true in Hn. rewrite Hn. eexists. apply dict_set_key.
Qed.

(** *** The loops as comprehensions *)

Lemma compare_fold (t : Q) (f : pdf_file) (tb : str) (idx : list (str * title_info)) :
  forall acc,
    fold_left (compare_step t (rel_path f) tb (normalize_title (Some tb))) idx acc
    = acc ++ flat_map (compared t f tb) idx.
Proof.
  induction idx as [|[pa info] idx IH]; intros acc; simpl.
  - now rewrite app_nil_r.
  - rewrite IH. unfold compared at 2. simpl.
    destruct (Qle_bool t _); simpl; [now rewrite <- app_assoc | reflexivity].
Qed.

Lemma match_step_app (idx : list (str * title_info)) (t : Q) (acc : list candidate)
  (f : pdf_file) :
  match_step idx t acc f = acc ++ file_candidates idx t f.
Proof.
  unfold match_step, file_candidates.
  destruct (is_pdf f); [|now rewrite app_nil_r].
  destruct (extract_title_from_pdf (content f)) as [tb|]; [|now rewrite app_nil_r].
  destruct (truthy tb); [|now rewrite app_nil_r].
  apply compare_fold.
Qed.

Lemma match_fold (idx : list (str * title_info)) (t : Q) (fs : list pdf_file) :
  forall acc, fold_left (match_step idx t) fs acc
              = acc ++ flat_map (file_candidates idx t) fs.
Proof.
  induction fs as [|f fs IH]; intros acc; simpl.
  - now rewrite app_nil_r.
  - now rewrite IH, match_step_app, app_assoc.
Qed.

(** The candidates in the order the loops find them: folder B's files in the
    order of their list, and for each the items of the index in its order. *)
Lemma discovered_flat_map (fa fb : list pdf_file) (t : Q) :
  discovered fa fb t = flat_map (file_candidates (build_index fa) t) fb.
Proof. unfold discovered. now rewrite match_fold. Qed.

Lemma compared_In (t : Q) (f : pdf_file) (tb : str) (item : str * title_info)
  (c : candidate) :
  In c (compared t f tb item) <->
  (t <= similarity (candidate_of item f tb))%Q /\ c = candidate_of item f tb.
Proof.
  unfold compared, candidate_of. simpl.
  destruct (Qle_bool t _) eqn:E; simpl.
  - apply Qle_bool_iff in E. split; [intros [<-|[]]; now split | intros [_ ->]; now left].
  - split; [contradiction|]. intros [H _]. apply Qle_bool_iff in H. congruence.
Qed.

Lemma file_candidates_In (idx : list (str * title_info)) (t : Q) (f : pdf_file)
  (c : candidate) :
  In c (file_candidates idx t f) <->
  exists item tb, In item idx /\ has_title f tb
                  /\ (t <= similarity (candidate_of item f tb))%Q
                  /\ c = candidate_of item f tb.
Proof.
  unfold file_candidates, has_title. split.
  - destruct (is_pdf f); [|contradiction].
    destruct (extract_title_from_pdf (content f)) as [tb|]; [|contradiction].
    destruct (truthy tb) eqn:Et; [|contradiction].
    intros H. apply in_flat_map in H. destruct H as [item [Hi H]].
    apply compared_In in H. destruct H as [H1 H2].
    exists item, tb. apply truthy_true in Et. repeat split; auto.
  - intros [item [tb [Hi [[Hp [He Hn]] [H1 H2]]]]].
    rewrite Hp, He. apply truthy_true in Hn. rewrite Hn.
    apply in_flat_map. exists item. split; [exact Hi|]. now apply compared_In.
Qed.

(** *** The sort *)

Lemma insert_desc_In (c x : candidate) (l : list candidate) :
  In x (insert_desc c l) <-> x = c \/ In x l.
Proof.
  induction l as [|d l IH]; simpl.
  - intuition congruence.
  - destruct (Qle_bool (similarity d) (similarity c)); simpl; [intuition congruence|].
    rewrite IH. intuition congruence.
Qed.

Lemma sort_desc_In (x : candidate) (l : list candidate) :
  In x (sort_desc l) <-> In x l.
Proof.
  induction l as [|c l IH]; simpl; [tauto|].
  rewrite insert_desc_In, IH. intuition congruence.
Qed.

Lemma insert_desc_sorted (c : candidate) (l : list candidate) :
  StronglySorted geq l -> StronglySorted geq (insert_desc c l).
Proof.
  induction l as [|d l IH]; intros Hs; simpl.
  - constructor; constructor.
  - inversion Hs as [|? ? Hl Hd]; subst.
    destruct (Qle_bool (similarity d) (similarity c)) eqn:E.
    + apply Qle_bool_iff in E. constructor; [exact Hs|].
      constructor; [exact E|].
      eapply Forall_impl; [|exact Hd]. intros x Hx. unfold geq in *.
      eapply Qle_trans; eassumption.
    + constructor; [now apply IH|].
      apply Forall_forall. intros x Hx. apply insert_desc_In in Hx.
      destruct Hx as [->|Hx].
      * unfold geq. destruct (Qlt_le_dec (similarity c) (similarity d)) as [H|H].
        -- now apply Qlt_le_weak.
        -- apply Qle_bool_iff in H. congruence.
      * rewrite Forall_forall in Hd. now apply Hd.
Qed.

Lemma sort_desc_sorted (l : list candidate) : StronglySorted geq (sort_desc l).
Proof.
  induction l as [|c l IH]; simpl; [constructor | now apply insert_desc_sorted].
Qed.

Lemma insert_desc_filter (s : Q) (c : candidate) (l : list candidate) :
  filter (has_similarity s) (insert_desc c l) = filter (has_similarity s) (c :: l).
Proof.
  induction l as [|d l IH]; [reflexivity|].
  simpl insert_desc.
  destruct (Qle_bool (similarity d) (similarity c)) eqn:E; [reflexivity|].
  simpl filter in *. rewrite IH.
  destruct (has_similarity s c) eqn:Ec; [|reflexivity].
  destruct (has_similarity s d) eqn:Ed; [|reflexivity].
  unfold has_similarity in Ec, Ed. apply Qeq_bool_iff in Ec, Ed.
  assert (H : Qle_bool (similarity d) (similarity c) = true).
  { apply Qle_bool_iff. rewrite Ec, Ed. apply Qle_refl. }
  congruence.
Qed.

(** The sort is stable: the elements of one similarity keep their order. *)
Lemma sort_desc_stable (s : Q) (l : list candidate) :
  filter (has_similarity s) (sort_desc l) = filter (has_similarity s) l.
Proof.
  induction l as [|c l IH]; [reflexivity|].
  simpl sort_desc. rewrite insert_desc_filter. simpl. now rewrite IH.
Qed.

Lemma find_similar_titles_In (fa fb : list pdf_file) (t : Q) (c : candidate) :
  In c (find_similar_titles fa fb t) <->
  exists item f tb, In item (build_index fa) /\ In f fb /\ has_title f tb
                    /\ (t <= similarity (candidate_of item f tb))%Q
                    /\ c = candidate_of item f tb.
Proof.
  unfold find_similar_titles. rewrite sort_desc_In, discovered_flat_map, in_flat_map.
  split.
  - intros [f [Hf H]]. apply file_candidates_In in H.
    destruct H as [item [tb [Hi [Ht [H1 H2]]]]]. exists item, f, tb. auto.
  - intros [item [f [tb [Hi [Hf [Ht [H1 H2]]]]]]]. exists f. split; [exact Hf|].
    apply file_candidates_In. exists item, tb. auto.
Qed.

End MatcherFacts.

Section MatcherClaims.
Context {U : PyChar}.

(** C2 (amended).  Every file of folder B whose extracted title is a non-empty
    string is compared with every item of folder A's index, and the pair is
    reported exactly when its ratio reaches the threshold; the items of the
    index are the files of folder A whose extracted title is a non-empty
    string, every such file has one under its path, and a file whose extracted
    title is absent or the empty string is in no candidate.  The test is on the
    extracted title: a title that is not empty and normalises to the empty
    string is compared and can be reported. *)
Theorem matcher_compares_every_titled_pair (fa fb : list pdf_file) (t : Q) :
  (forall c, In c (find_similar_titles fa fb t) <->
     exists item f tb, In item (build_index fa) /\ In f fb /\ has_title f tb
                       /\ (t <= similarity (candidate_of item f tb))%Q
                       /\ c = candidate_of item f tb)
  /\ (forall item, In item (build_index fa) ->
        exists f, In f fa /\ rel_path f = fst item /\ has_title f (original (snd item))
                  /\ normalized (snd item) = normalize_title (Some (original (snd item))))
  /\ (forall f ta, In f fa -> has_title f ta ->
        exists info, In (rel_path f, info) (build_index fa)).
Proof.
  split; [|split].
  - intros c. apply find_similar_titles_In.
  - intros item Hi. pose proof (build_index_from_file fa) as H.
    rewrite Forall_forall in H. exact (H item Hi).
  - intros f ta Hf Ht. unfold build_index. eapply fold_index_has_key; eassumption.
Qed.

(** C6.  Raising the threshold only removes pairs: the pairs of paths
    reported at [t2] are among those reported at a lower [t1]. *)
Theorem threshold_monotone (fa fb : list pdf_file) (t1 t2 : Q) :
  (t1 < t2)%Q ->
  incl (map paths (find_similar_titles fa fb t2)) (map paths (find_similar_titles fa fb t1)).
Proof.
  intros Hlt p Hp. apply in_map_iff in Hp. destruct Hp as [c [<- Hc]].
  apply in_map. apply find_similar_titles_In in Hc. apply find_similar_titles_In.
  destruct Hc as [item [f [tb [Hi [Hf [Ht [H1 H2]]]]]]].
  exists item, f, tb. repeat split; auto; try apply Ht.
  apply Qlt_le_weak. eapply Qlt_le_trans; eassumption.
Qed.

(** C8.  The returned candidates are sorted by similarity, descending: the
    similarity of a candidate is at least that of every candidate after it. *)
Theorem report_sorted_descending (fa fb : list pdf_file) (t : Q) :
  StronglySorted (fun c d => (similarity d <= similarity c)%Q)
    (find_similar_titles fa fb t).
Proof. unfold find_similar_titles. apply sort_desc_sorted. Qed.

(** C10.  The candidates of one similarity stand in the report in the order
    the loops found them: by the file of folder B in the order of its listing,
    and for one file of B by the item of folder A's index in its order. *)
Theorem ties_keep_discovery_order (fa fb : list pdf_file) (t s : Q) :
  filter (has_similarity s) (find_similar_titles fa fb t)
  = filter (has_similarity s) (flat_map (file_candidates (build_index fa) t) fb).
Proof.
  unfold find_similar_titles. now rewrite sort_desc_stable, discovered_flat_map.
Qed.

End MatcherClaims.

(** C2, the claim as it stands fails on two files whose only line is a ruler:
    both titles normalise to the empty string, and the pair is compared and
    reported. *)
Lemma empty_normalized_titles_are_compared :
  find_similar_titles folder_a0 folder_b0 (8 # 10) = [ruler_candidate]
  /\ normalize_title (Some (title_a ruler_candidate)) = []
  /\ normalize_title (Some (title_b ruler_candidate)) = [].
Proof. repeat split; reflexivity. Qed.

(** C6 on the third scenario of the specification, thresholds 0.8 and 0.9. *)
Lemma threshold_monotone_scenario :
  (8 # 10 < 9 # 10)%Q
  /\ incl (map paths (find_similar_titles scenario_a scenario_b (9 # 10)))
          (map paths (find_similar_titles scenario_a scenario_b (8 # 10))).
Proof.
  split; [reflexivity|].
  apply (threshold_monotone (U := AsciiChar) scenario_a scenario_b (8 # 10) (9 # 10)). reflexivity.
Defined.

(* ================================================================== *)
(** * Part III: further properties of the code *)
(* ================================================================== *)

(** ** Further properties of normalisation *)

Section NormalizeMore.
Context {U : PyChar}.

Lemma drop_while_keeps (s : str) (c : char) :
  In c s -> is_space c = false -> In c (drop_while is_space s).
Proof.
  induction s as [|d s IH]; simpl; [tauto|].
  intros [->|H] Hc.
  - rewrite Hc. now left.
  - destruct (is_space d); [now apply IH | now right].
Qed.

Lemma strip_keeps (s : str) (c : char) :
  In c s -> is_space c = false -> In c (strip s).
Proof.
  intros H Hc. unfold strip, rstrip, lstrip.
  rewrite <- in_rev. apply drop_while_keeps; [|exact Hc].
  rewrite <- in_rev. now apply drop_while_keeps.
Qed.

Lemma sub_runs_keeps (s : str) (c : char) :
  In c s -> is_space c = false -> forall b, In c (sub_runs b s).
Proof.
  induction s as [|d s IH]; simpl; [tauto|].
  intros [->|H] Hc b.
  - rewrite Hc. now left.
  - destruct (is_space d); [destruct b; [|right]; now apply IH|].
    right. now apply IH.
Qed.

Lemma sub_nonword_keeps (s : str) (c : char) :
  In c s -> is_word c = true -> In c (sub_nonword s).
Proof.
  intros H Hw. unfold sub_nonword. apply in_map_iff. exists c.
  now rewrite Hw.
Qed.

(** X1.  A normalised title is in lower case: lower-casing it again changes
    nothing. *)
Theorem normalize_title_lower_case (t : option str) :
  str_lower (normalize_title t) = normalize_title t.
Proof.
  apply lower_fixed. intros c Hc. apply normalize_title_In in Hc.
  destruct Hc as [->|[_ [_ [s [_ Hc]]]]].
  - apply lower_space.
  - exact (lower_lowered s c Hc).
Qed.

(** X2.  The normalised title is the empty string exactly when the lower-cased
    title has no character that is a word character and no whitespace: a title
    of punctuation and spaces only normalises to nothing. *)
Theorem normalize_title_empty_iff (t : str) :
  normalize_title (Some t) = [] <->
  (forall c, In c (str_lower t) -> is_word c = true -> is_space c = true).
Proof.
  destruct t as [|d t].
  - simpl. rewrite str_lower_nil. split; [intros _ c [] | reflexivity].
  - unfold normalize_title. split.
    + intros H c Hc Hw. destruct (is_space c) eqn:Es; [reflexivity|]. exfalso.
      assert (Hin : In c (strip (sub_runs false (sub_nonword (str_lower (d :: t)))))).
      { apply strip_keeps; [|exact Es]. apply sub_runs_keeps; [|exact Es].
        now apply sub_nonword_keeps. }
      rewrite H in Hin. exact Hin.
    + intros H. apply strip_all_space. intros c Hc.
      apply sub_runs_In in Hc. destruct Hc as [->|[Es Hc]]; [apply space_is_space|].
      apply sub_nonword_In in Hc. destruct Hc as [->|[Hw Hc]].
      * apply space_is_space.
      * rewrite Es, orb_false_r in Hw. rewrite (H c Hc Hw) in Es. discriminate.
Qed.

End NormalizeMore.

Section NormalizeSame.
Context {U : PyChar}.

(** X3.  Two titles have one normalised title exactly when their lower-cased
    forms have the same words: case, punctuation and the amount of whitespace
    make no difference, and nothing else is ignored. *)
Theorem same_normalized_title_iff_same_words (a b : str) :
  normalize_title (Some a) = normalize_title (Some b)
  <-> words (str_lower a) = words (str_lower b).
Proof.
  rewrite !normalize_title_words. split.
  - apply join_words_inj; apply words_kept.
  - now intros ->.
Qed.

End NormalizeSame.

(** ** Further properties of title extraction *)

Section ExtractorMore.
Context {U : PyChar}.

Lemma split_on_no_sep (sep : char) (s : str) :
  forall l, In l (split_on sep s) -> ~ In sep l.
Proof.
  induction s as [|c s IH]; simpl; intros l H.
  - destruct H as [<-|[]]. intros [].
  - destruct (char_eqb_spec c sep) as [->|Hn].
    + destruct H as [<-|H]; [intros [] | now apply IH].
    + destruct (split_on sep s) as [|l0 ls].
      * destruct H as [<-|[]]. intros [E|[]]. now apply Hn.
      * destruct H as [<-|H].
        -- intros [E|E]; [now apply Hn|]. apply (IH l0); [now left | exact E].
        -- apply IH. now right.
Qed.

Lemma nonempty_lines_In (text l : str) :
  In l (nonempty_lines text) ->
  l <> [] /\ exists raw, In raw (split_on nl text) /\ l = strip raw.
Proof.
  unfold nonempty_lines. intros H. apply in_map_iff in H.
  destruct H as [raw [<- H]]. apply filter_In in H. destruct H as [Hr Ht].
  split; [|now exists raw]. destruct (strip raw); [discriminate Ht | discriminate].
Qed.

Lemma survives_long (l : str) : survives l = true -> 10 <= length l.
Proof.
  unfold survives, discarded. intros H. apply negb_true_iff in H.
  apply orb_false_iff in H. destruct H as [H _].
  apply orb_false_iff in H. destruct H as [_ H].
  apply Nat.ltb_ge in H. exact H.
Qed.

Lemma potential_title_lines_In (lines : list str) (l : str) :
  In l (potential_title_lines lines) -> survives l = true /\ In l (firstn 10 lines).
Proof.
  unfold potential_title_lines. rewrite scan_closed_form. intros H.
  rewrite <- (firstn_skipn 2 (firstn 10 lines)).
  apply in_app_or in H. destruct H as [H|H].
  - apply filter_In in H. destruct H as [H1 H2]. split; [exact H2|].
    apply in_or_app. now left.
  - assert (H' : In l (filter survives (skipn 2 (firstn 10 lines)))).
    { destruct (filter survives (skipn 2 (firstn 10 lines))) as [|x xs]; [destruct H|].
      simpl in H. destruct H as [<-|[]]. now left. }
    apply filter_In in H'. destruct H' as [H1 H2]. split; [exact H2|].
    apply in_or_app. now right.
Qed.

Lemma potential_title_lines_length (lines : list str) :
  length (potential_title_lines lines) <= 3.
Proof.
  unfold potential_title_lines. rewrite scan_closed_form, length_app.
  pose proof (filter_length_le survives (firstn 2 (firstn 10 lines))) as H1.
  pose proof (firstn_le_length 2 (firstn 10 lines)) as H2.
  pose proof (firstn_le_length 1 (filter survives (skipn 2 (firstn 10 lines)))) as H3.
  lia.
Qed.

Lemma join_length_ge (sep : str) (ls : list str) (l : str) :
  In l ls -> length l <= length (join sep ls).
Proof.
  induction ls as [|x ls IH]; [intros []|].
  intros H. destruct ls as [|y ls].
  - destruct H as [<-|[]]. simpl. lia.
  - change (join sep (x :: y :: ls)) with (x ++ sep ++ join sep (y :: ls)).
    rewrite !length_app. destruct H as [<-|H]; [lia|].
    specialize (IH H). lia.
Qed.

Lemma title_of_text_cases (text : str) :
  (potential_title_lines (nonempty_lines text) = [] /\ length text <= 100
   /\ title_of_text text = [])
  \/ (potential_title_lines (nonempty_lines text) = [] /\ 100 < length text
      /\ title_of_text text = firstn 100 text)
  \/ (potential_title_lines (nonempty_lines text) <> []
      /\ title_of_text text = join [sp] (potential_title_lines (nonempty_lines text))
      /\ 10 <= length (title_of_text text)).
Proof.
  unfold title_of_text.
  rewrite (firstn_all2 (n := 3) (potential_title_lines (nonempty_lines text)))
    by apply potential_title_lines_length.
  destruct (potential_title_lines (nonempty_lines text)) as [|l ls] eqn:E.
  - simpl. destruct (100 <? length text) eqn:El.
    + apply Nat.ltb_lt in El. right. left. auto.
    + apply Nat.ltb_ge in El. left. auto.
  - right. right.
    assert (Hl : 10 <= length (join [sp] (l :: ls))).
    { assert (Hin : In l (potential_title_lines (nonempty_lines text)))
        by (rewrite E; now left).
      apply potential_title_lines_In in Hin. destruct Hin as [Hs _].
      apply survives_long in Hs.
      pose proof (join_length_ge [sp] (l :: ls) l (or_introl eq_refl)). lia. }
    destruct (join [sp] (l :: ls)) as [|c r] eqn:Ej; [simpl in Hl; lia|].
    simpl. repeat split; [discriminate | exact Hl].
Qed.

Lemma at_dollar_drop_decimal (s : str) :
  at_dollar s = true -> at_dollar (drop_while is_decimal s) = true.
Proof.
  destruct s as [|c [|d s]]; simpl; try discriminate; auto.
  destruct (is_decimal c); auto.
Qed.

Lemma re_year_digits (line : str) : re_year line = true -> re_digits line = true.
Proof.
  unfold re_year, re_digits. intros H.
  apply andb_true_iff in H. destruct H as [H Hd].
  apply andb_true_iff in H. destruct H as [Hl Hf].
  destruct line as [|c1 [|c2 [|c3 [|c4 rest]]]]; try discriminate Hl.
  cbn [firstn forallb] in Hf. cbn [skipn] in Hd.
  repeat (apply andb_true_iff in Hf; destruct Hf as [? Hf]).
  cbn [drop_while].
  repeat match goal with H : is_decimal _ = true |- _ => rewrite H; clear H end.
  cbn [andb]. now apply at_dollar_drop_decimal.
Qed.

(** X4.  The lines the scan goes over have no newline in them, are not empty
    and carry no whitespace at either end. *)
Theorem nonempty_lines_are_stripped_lines (text : str) :
  Forall (fun l => l <> [] /\ starts_clean l /\ ends_clean l /\ ~ In nl l)
         (nonempty_lines text).
Proof.
  apply Forall_forall. intros l H. apply nonempty_lines_In in H.
  destruct H as [Hn [raw [Hr ->]]].
  split; [exact Hn|]. split; [apply strip_starts_clean|].
  split; [apply strip_ends_clean|].
  intros Hc. apply strip_In in Hc. exact (split_on_no_sep nl text raw Hr Hc).
Qed.

(** X5.  The alternative [^\d{4}$] of the pattern of line 41 decides nothing:
    a line it matches is matched by [^\d+$] already. *)
Theorem year_alternative_is_redundant (line : str) :
  re_not_title line
  = re_digits line
    || starts_with_ci (pat "Vol.") line
    || starts_with_ci (pat "Abstract") line
    || starts_with_ci (pat "Pages") line
    || starts_with_ci (pat "Journal of") line.
Proof.
  unfold re_not_title. destruct (re_year line) eqn:E.
  - apply re_year_digits in E. rewrite E. reflexivity.
  - now rewrite orb_false_r.
Qed.

(** X6.  The scan gives at most three candidate lines, so the slice [[:3]] of
    line 59 never drops one; each candidate passes the three discard tests and
    is one of the first ten lines. *)
Theorem at_most_three_candidate_lines (lines : list str) :
  length (potential_title_lines lines) <= 3
  /\ firstn 3 (potential_title_lines lines) = potential_title_lines lines
  /\ Forall (fun l => survives l = true /\ In l (firstn 10 lines))
            (potential_title_lines lines).
Proof.
  split; [apply potential_title_lines_length|].
  split; [apply firstn_all2; apply potential_title_lines_length|].
  apply Forall_forall. intros l. apply potential_title_lines_In.
Qed.

(** X7.  The title made from a page text is the empty string exactly when no
    line is a candidate and the text has at most 100 characters. *)
Theorem title_of_text_empty_iff (text : str) :
  title_of_text text = [] <->
  potential_title_lines (nonempty_lines text) = [] /\ length text <= 100.
Proof.
  destruct (title_of_text_cases text) as [[H1 [H2 H3]]|[[H1 [H2 H3]]|[H1 [H2 H3]]]].
  - tauto.
  - split; [|lia]. intros H. rewrite H in H3.
    assert (Hl : length (firstn 100 text) = 0) by now rewrite <- H3.
    rewrite length_firstn in Hl. lia.
  - split; [|tauto]. intros H. rewrite H in H3. simpl in H3. lia.
Qed.

(** X8.  An extracted title is never a short string: the extractor gives
    [None], the empty string, or a title of ten characters or more. *)
Theorem extracted_title_empty_or_long (file : pdf) :
  match extract_title_from_pdf file with
  | None => True
  | Some title => title = [] \/ 10 <= length title
  end.
Proof.
  assert (Ht : forall text, title_of_text text = [] \/ 10 <= length (title_of_text text)).
  { intros text.
    destruct (title_of_text_cases text) as [[H1 [H2 H3]]|[[H1 [H2 H3]]|[H1 [H2 H3]]]].
    - now left.
    - right. rewrite H3, length_firstn. lia.
    - now right. }
  unfold extract_title_from_pdf, extract_title_body.
  destruct file as [[|[[|c t]|] more]|]; simpl; auto.
  destruct more as [|[[|c t]|] more]; simpl; auto.
Qed.

(** X9.  No title is extracted ([None]) exactly when the file cannot be read,
    has no page, its first page's text cannot be extracted, or the first page
    has no text and there is no second page, or the second page's text cannot
    be extracted or is empty too. *)
Theorem extract_title_none_iff (file : pdf) :
  extract_title_from_pdf file = None <->
  file = Raises
  \/ file = Returns []
  \/ (exists more, file = Returns (Raises :: more))
  \/ file = Returns [Returns []]
  \/ (exists more, file = Returns (Returns [] :: Raises :: more))
  \/ (exists more, file = Returns (Returns [] :: Returns [] :: more)).
Proof.
  unfold extract_title_from_pdf, extract_title_body. split.
  - destruct file as [[|[[|c t]|] more]|]; simpl; auto.
    + destruct more as [|[[|c t]|] more]; simpl; eauto 8. discriminate.
    + discriminate.
    + eauto.
  - intros [->|[->|[[more ->]|[->|[[more ->]|[more ->]]]]]]; reflexivity.
Qed.

End ExtractorMore.

(** ** Further properties of the matcher *)

Section MatcherMore.
Context {U : PyChar}.

Lemma has_title_titled (f : pdf_file) (tb : str) :
  has_title f tb <-> titled f = true /\ tb = title_of f.
Proof.
  unfold has_title, titled, title_of. split.
  - intros [Hp [He Hn]]. rewrite Hp, He. apply truthy_true in Hn. now rewrite Hn.
  - intros [H ->]. apply andb_true_iff in H. destruct H as [Hp H].
    destruct (extract_title_from_pdf (content f)) as [t|]; [|discriminate].
    apply truthy_true in H. auto.
Qed.

Lemma index_step_titled (d : list (str * title_info)) (f : pdf_file) :
  index_step d f = if titled f then dict_set d (rel_path f) (snd (entry_of f)) else d.
Proof.
  unfold index_step, titled, entry_of, title_of.
  destruct (is_pdf f); [|reflexivity]. simpl.
  destruct (extract_title_from_pdf (content f)) as [t|]; [|reflexivity].
  destruct (truthy t); reflexivity.
Qed.

Lemma file_candidates_titled (idx : list (str * title_info)) (t : Q) (f : pdf_file) :
  file_candidates idx t f
  = if titled f then flat_map (compared t f (title_of f)) idx else [].
Proof.
  unfold file_candidates, titled, title_of.
  destruct (is_pdf f); [|reflexivity]. simpl.
  destruct (extract_title_from_pdf (content f)) as [tb|]; [|reflexivity].
  destruct (truthy tb); reflexivity.
Qed.

(** *** Files without a title *)

Lemma fold_index_filter (fs : list pdf_file) :
  forall d, fold_left index_step (filter titled fs) d = fold_left index_step fs d.
Proof.
  induction fs as [|f fs IH]; intros d; simpl; [reflexivity|].
  destruct (titled f) eqn:E; simpl; rewrite IH; [reflexivity|].
  now rewrite (index_step_titled d f), E.
Qed.

Lemma candidates_filter (idx : list (str * title_info)) (t : Q) (fs : list pdf_file) :
  flat_map (file_candidates idx t) (filter titled fs)
  = flat_map (file_candidates idx t) fs.
Proof.
  induction fs as [|f fs IH]; simpl; [reflexivity|].
  destruct (titled f) eqn:E; simpl; rewrite IH; [reflexivity|].
  now rewrite (file_candidates_titled idx t f), E.
Qed.

(** *** The keys of the index *)

Lemma dict_set_keys_In (d : list (str * title_info)) (k : str) (v : title_info)
  (k' : str) :
  In k' (map fst (dict_set d k v)) <-> k' = k \/ In k' (map fst d).
Proof.
  induction d as [|[k0 v0] d IH]; simpl.
  - intuition congruence.
  - destruct (str_eqb_spec k0 k) as [->|Hn]; simpl; [intuition congruence|].
    rewrite IH. intuition congruence.
Qed.

Lemma dict_set_NoDup (d : list (str * title_info)) (k : str) (v : title_info) :
  NoDup (map fst d) -> NoDup (map fst (dict_set d k v)).
Proof.
  induction d as [|[k0 v0] d IH]; simpl; intros H.
  - constructor; [intros [] | constructor].
  - inversion H as [|? ? Hn Hd]; subst.
    destruct (str_eqb_spec k0 k) as [->|Hk]; simpl; [now constructor|].
    constructor; [|now apply IH].
    rewrite dict_set_keys_In. intros [E|E]; [now apply Hk | now apply Hn].
Qed.

Lemma dict_set_fresh (d : list (str * title_info)) (k : str) (v : title_info) :
  ~ In k (map fst d) -> dict_set d k v = d ++ [(k, v)].
Proof.
  induction d as [|[k0 v0] d IH]; simpl; intros H; [reflexivity|].
  destruct (str_eqb_spec k0 k) as [->|Hk]; [exfalso; apply H; now left|].
  rewrite IH; [reflexivity|]. intros E. apply H. now right.
Qed.

Lemma dict_set_length (d : list (str * title_info)) (k : str) (v : title_info) :
  length (dict_set d k v) <= S (length d).
Proof.
  induction d as [|[k0 v0] d IH]; simpl; [lia|].
  destruct (str_eqb k0 k); simpl; lia.
Qed.

Lemma fold_index_NoDup (fs : list pdf_file) :
  forall d, NoDup (map fst d) -> NoDup (map fst (fold_left index_step fs d)).
Proof.
  induction fs as [|f fs IH]; intros d H; simpl; [exact H|].
  apply IH. rewrite index_step_titled.
  destruct (titled f); [now apply dict_set_NoDup | exact H].
Qed.

Lemma fold_index_length (fs : list pdf_file) :
  forall d, length (fold_left index_step fs d) <= length d + length (filter titled fs).
Proof.
  induction fs as [|f fs IH]; intros d; simpl; [lia|].
  specialize (IH (index_step d f)). rewrite index_step_titled in *.
  destruct (titled f); cbn [length]; [|exact IH].
  pose proof (dict_set_length d (rel_path f) (snd (entry_of f))). lia.
Qed.

Lemma fold_index_distinct (fs : list pdf_file) :
  forall d, NoDup (map fst d ++ map rel_path (filter titled fs)) ->
            fold_left index_step fs d = d ++ map entry_of (filter titled fs).
Proof.
  induction fs as [|f fs IH]; intros d H; simpl; [now rewrite app_nil_r|].
  rewrite index_step_titled. simpl in H. destruct (titled f); [|now apply IH].
  simpl in H. pose proof (NoDup_remove_2 _ _ _ H) as Hn.
  rewrite dict_set_fresh.
  - rewrite IH.
    + rewrite <- app_assoc. reflexivity.
    + rewrite map_app, <- app_assoc. exact H.
  - intros E. apply Hn. apply in_or_app. now left.
Qed.

Lemma build_index_distinct (fa : list pdf_file) :
  NoDup (map rel_path (filter titled fa)) ->
  build_index fa = map entry_of (filter titled fa).
Proof. intros H. unfold build_index. now rewrite fold_index_distinct. Qed.

(** *** The sort keeps what it is given *)

Lemma insert_desc_perm (c : candidate) (l : list candidate) :
  Permutation (insert_desc c l) (c :: l).
Proof.
  induction l as [|d l IH]; simpl; [reflexivity|].
  destruct (Qle_bool (similarity d) (similarity c)); [reflexivity|].
  rewrite IH. apply perm_swap.
Qed.

Lemma sort_desc_perm (l : list candidate) : Permutation (sort_desc l) l.
Proof.
  induction l as [|c l IH]; simpl; [reflexivity|].
  rewrite insert_desc_perm. now constructor.
Qed.

Lemma insert_desc_head (c : candidate) (l : list candidate) :
  Forall (fun d => (similarity d <= similarity c)%Q) l -> insert_desc c l = c :: l.
Proof.
  destruct l as [|d l]; [reflexivity|]. intros H. inversion H as [|? ? Hd _]; subst.
  simpl. apply Qle_bool_iff in Hd. now rewrite Hd.
Qed.

Lemma insert_desc_filter_dropped (p : candidate -> bool) (c : candidate)
  (l : list candidate) :
  p c = false -> filter p (insert_desc c l) = filter p l.
Proof.
  intros Hp. induction l as [|d l IH]; simpl; [now rewrite Hp|].
  destruct (Qle_bool (similarity d) (similarity c)); simpl; [now rewrite Hp|].
  now rewrite IH.
Qed.

Lemma insert_desc_filter_kept (p : candidate -> bool) (c : candidate)
  (l : list candidate) :
  StronglySorted geq l -> p c = true ->
  filter p (insert_desc c l) = insert_desc c (filter p l).
Proof.
  intros Hs Hp. induction l as [|d l IH]; simpl; [now rewrite Hp|].
  inversion Hs as [|? ? Hl Hd]; subst.
  destruct (Qle_bool (similarity d) (similarity c)) eqn:E.
  - change (filter p (c :: d :: l)) with
      (if p c then c :: filter p (d :: l) else filter p (d :: l)).
    rewrite Hp. symmetry. apply insert_desc_head.
    apply Forall_forall. intros x Hx. apply filter_In in Hx. destruct Hx as [Hx _].
    apply Qle_bool_iff in E. destruct Hx as [<-|Hx]; [exact E|].
    rewrite Forall_forall in Hd. eapply Qle_trans; [exact (Hd x Hx) | exact E].
  - simpl. destruct (p d); simpl; rewrite (IH Hl); [|reflexivity].
    now rewrite E.
Qed.

Lemma sort_desc_filter (p : candidate -> bool) (l : list candidate) :
  filter p (sort_desc l) = sort_desc (filter p l).
Proof.
  induction l as [|c l IH]; simpl; [reflexivity|].
  destruct (p c) eqn:Hp.
  - rewrite insert_desc_filter_kept; [|apply sort_desc_sorted | exact Hp].
    simpl. now rewrite IH.
  - now rewrite insert_desc_filter_dropped.
Qed.

Lemma filter_flat_map {X Y : Type} (p : Y -> bool) (g : X -> list Y) (l : list X) :
  filter p (flat_map g l) = flat_map (fun x => filter p (g x)) l.
Proof.
  induction l as [|x l IH]; simpl; [reflexivity|]. now rewrite filter_app, IH.
Qed.

Lemma compared_raise (t1 t2 : Q) (f : pdf_file) (tb : str) (item : str * title_info) :
  (t1 <= t2)%Q ->
  compared t2 f tb item = filter (reaches t2) (compared t1 f tb item).
Proof.
  intros Hle. unfold compared.
  destruct (Qle_bool t1 _) eqn:E1; simpl.
  - unfold reaches. simpl. destruct (Qle_bool t2 _); reflexivity.
  - destruct (Qle_bool t2 _) eqn:E2; [|reflexivity].
    apply Qle_bool_iff in E2.
    assert (H : Qle_bool t1
                  (ratio char_eqb (normalized (snd item)) (normalize_title (Some tb)))
                = true).
    { apply Qle_bool_iff. eapply Qle_trans; eassumption. }
    congruence.
Qed.

Lemma file_candidates_raise (idx : list (str * title_info)) (t1 t2 : Q)
  (f : pdf_file) :
  (t1 <= t2)%Q ->
  file_candidates idx t2 f = filter (reaches t2) (file_candidates idx t1 f).
Proof.
  intros Hle. rewrite !file_candidates_titled.
  destruct (titled f); [|reflexivity].
  rewrite filter_flat_map. apply flat_map_ext. intros item.
  now apply compared_raise.
Qed.

(** *** Sizes *)

Lemma compared_length (t : Q) (f : pdf_file) (tb : str) (item : str * title_info) :
  length (compared t f tb item) <= 1.
Proof. unfold compared. destruct (Qle_bool t _); simpl; lia. Qed.

Lemma compared_all_length (t : Q) (f : pdf_file) (tb : str)
  (idx : list (str * title_info)) :
  length (flat_map (compared t f tb) idx) <= length idx.
Proof.
  induction idx as [|item idx IH]; simpl; [lia|].
  rewrite length_app. pose proof (compared_length t f tb item). lia.
Qed.

Lemma candidates_length (idx : list (str * title_info)) (t : Q) (fs : list pdf_file) :
  length (flat_map (file_candidates idx t) fs)
  <= length idx * length (filter titled fs).
Proof.
  induction fs as [|f fs IH]; simpl; [lia|].
  rewrite length_app, file_candidates_titled.
  destruct (titled f); simpl; [|lia].
  pose proof (compared_all_length t f (title_of f) idx). lia.
Qed.

Lemma similarity_range (a b : str) :
  (0 <= ratio char_eqb a b)%Q /\ (ratio char_eqb a b <= 1)%Q.
Proof. apply ratio_bounds. apply char_eqb_spec. Qed.

Lemma compared_all_below (t : Q) (f : pdf_file) (tb : str)
  (idx : list (str * title_info)) :
  (t <= 0)%Q -> length (flat_map (compared t f tb) idx) = length idx.
Proof.
  intros Ht. induction idx as [|item idx IH]; simpl; [reflexivity|].
  rewrite length_app, IH. unfold compared.
  assert (H : Qle_bool t
                (ratio char_eqb (normalized (snd item)) (normalize_title (Some tb)))
              = true).
  { apply Qle_bool_iff. eapply Qle_trans; [exact Ht | apply similarity_range]. }
  now rewrite H.
Qed.

Lemma candidates_all_below (idx : list (str * title_info)) (t : Q)
  (fs : list pdf_file) :
  (t <= 0)%Q ->
  length (flat_map (file_candidates idx t) fs)
  = length idx * length (filter titled fs).
Proof.
  intros Ht. induction fs as [|f fs IH]; simpl; [lia|].
  rewrite length_app, file_candidates_titled, IH.
  destruct (titled f); simpl; [|lia].
  rewrite (compared_all_below t f (title_of f) idx Ht). lia.
Qed.

(** *** Pairs of paths *)

Lemma compared_paths (t : Q) (f : pdf_file) (tb : str) (idx : list (str * title_info))
  (p : str * str) :
  In p (map paths (flat_map (compared t f tb) idx)) ->
  In (fst p) (map fst idx) /\ snd p = rel_path f.
Proof.
  intros H. apply in_map_iff in H. destruct H as [c [<- H]].
  apply in_flat_map in H. destruct H as [item [Hi H]].
  apply compared_In in H. destruct H as [_ ->]. simpl. split; [now apply in_map | reflexivity].
Qed.

Lemma compared_paths_NoDup (t : Q) (f : pdf_file) (tb : str)
  (idx : list (str * title_info)) :
  NoDup (map fst idx) -> NoDup (map paths (flat_map (compared t f tb) idx)).
Proof.
  induction idx as [|item idx IH]; simpl; intros H; [constructor|].
  inversion H as [|? ? Hn Hd]; subst. rewrite map_app.
  unfold compared at 1. destruct (Qle_bool t _); simpl; [|now apply IH].
  constructor; [|now apply IH].
  intros E. apply compared_paths in E. simpl in E. now apply Hn.
Qed.

Lemma candidates_paths (idx : list (str * title_info)) (t : Q) (fs : list pdf_file)
  (p : str * str) :
  In p (map paths (flat_map (file_candidates idx t) fs)) ->
  In (snd p) (map rel_path (filter titled fs)).
Proof.
  induction fs as [|f fs IH]; simpl; [tauto|].
  rewrite map_app, in_app_iff, file_candidates_titled.
  destruct (titled f); simpl.
  - intros [H|H]; [left; apply compared_paths in H; now destruct H | right; now apply IH].
  - intros [[]|H]. now apply IH.
Qed.

Lemma candidates_paths_NoDup (idx : list (str * title_info)) (t : Q)
  (fs : list pdf_file) :
  NoDup (map fst idx) -> NoDup (map rel_path (filter titled fs)) ->
  NoDup (map paths (flat_map (file_candidates idx t) fs)).
Proof.
  intros Hi. induction fs as [|f fs IH]; simpl; intros H; [constructor|].
  rewrite map_app, file_candidates_titled.
  destruct (titled f); simpl in *; [|now apply IH].
  inversion H as [|? ? Hn Hd]; subst.
  apply NoDup_app; [now apply compared_paths_NoDup | now apply IH |].
  intros p H1 H2. apply compared_paths in H1. destruct H1 as [_ H1].
  apply candidates_paths in H2. rewrite H1 in H2. now apply Hn.
Qed.

(** X10.  Every reported pair has a similarity at least the threshold and
    between 0 and 1. *)
Theorem reported_similarity_in_range (fa fb : list pdf_file) (t : Q) :
  Forall (fun c => (t <= similarity c)%Q /\ (0 <= similarity c)%Q
                   /\ (similarity c <= 1)%Q)
         (find_similar_titles fa fb t).
Proof.
  apply Forall_forall. intros c H. apply find_similar_titles_In in H.
  destruct H as [item [f [tb [_ [_ [_ [Ht ->]]]]]]].
  split; [exact Ht|]. apply similarity_range.
Qed.

(** X11.  With a threshold above 1 nothing is reported. *)
Theorem threshold_above_one_reports_nothing (fa fb : list pdf_file) (t : Q) :
  (1 < t)%Q -> find_similar_titles fa fb t = [].
Proof.
  intros Ht. destruct (find_similar_titles fa fb t) as [|c l] eqn:E; [reflexivity|].
  exfalso. assert (H : In c (find_similar_titles fa fb t)) by (rewrite E; now left).
  apply find_similar_titles_In in H.
  destruct H as [item [f [tb [_ [_ [_ [Hs ->]]]]]]].
  apply (Qlt_not_le _ _ Ht). eapply Qle_trans; [exact Hs | apply similarity_range].
Qed.

(** X12.  A reported pair describes itself: its two titles are not empty, and
    its similarity is the ratio of its two titles, normalised. *)
Theorem reported_pair_is_self_describing (fa fb : list pdf_file) (t : Q) :
  Forall (fun c => title_a c <> [] /\ title_b c <> []
                   /\ similarity c
                      = ratio char_eqb (normalize_title (Some (title_a c)))
                                       (normalize_title (Some (title_b c))))
         (find_similar_titles fa fb t).
Proof.
  apply Forall_forall. intros c H. apply find_similar_titles_In in H.
  destruct H as [item [f [tb [Hi [_ [Hb [_ ->]]]]]]].
  pose proof (build_index_from_file fa) as Hf. rewrite Forall_forall in Hf.
  destruct (Hf item Hi) as [g [_ [_ [[_ [_ Ha]] Hn]]]].
  unfold candidate_of. cbn [title_a title_b similarity].
  rewrite <- Hn. destruct Hb as [_ [_ Hb]]. auto.
Qed.

(** X13.  Files from which no title is extracted change nothing: the report
    is the one of the two folders without them. *)
Theorem untitled_files_change_nothing (fa fb : list pdf_file) (t : Q) :
  find_similar_titles fa fb t
  = find_similar_titles (filter titled fa) (filter titled fb) t.
Proof.
  unfold find_similar_titles. rewrite !discovered_flat_map. unfold build_index.
  now rewrite fold_index_filter, candidates_filter.
Qed.

(** X14.  The index of folder A has one item for a path, and no more items
    than the folder has files with a title. *)
Theorem index_has_one_item_per_path (fa : list pdf_file) :
  NoDup (map fst (build_index fa))
  /\ length (build_index fa) <= length (filter titled fa).
Proof.
  split.
  - apply fold_index_NoDup. constructor.
  - apply (fold_index_length fa []).
Qed.

(** X15.  When the files with a title in folder A have different paths, as
    the files one glob lists have, the index is these files in the order of
    the listing, each with its title and its normalised title. *)
Theorem index_of_distinct_paths (fa : list pdf_file) :
  NoDup (map rel_path (filter titled fa)) ->
  build_index fa = map entry_of (filter titled fa).
Proof. apply build_index_distinct. Qed.

(** X16.  The sort neither drops nor repeats a candidate, and the report for
    a folder B listed in two parts has the candidates of the two reports. *)
Theorem report_over_split_folder (fa fb1 fb2 : list pdf_file) (t : Q) :
  Permutation (find_similar_titles fa fb1 t)
              (flat_map (file_candidates (build_index fa) t) fb1)
  /\ Permutation (find_similar_titles fa (fb1 ++ fb2) t)
                 (find_similar_titles fa fb1 t ++ find_similar_titles fa fb2 t).
Proof.
  unfold find_similar_titles. rewrite !discovered_flat_map. split.
  - apply sort_desc_perm.
  - rewrite !sort_desc_perm, flat_map_app. reflexivity.
Qed.

(** X17.  Raising the threshold filters the report: the report at [t2] is
    the report at a lower [t1] without the candidates below [t2], in the same
    order. *)
Theorem raising_threshold_filters_report (fa fb : list pdf_file) (t1 t2 : Q) :
  (t1 <= t2)%Q ->
  find_similar_titles fa fb t2 = filter (reaches t2) (find_similar_titles fa fb t1).
Proof.
  intros Hle. unfold find_similar_titles.
  rewrite sort_desc_filter, !discovered_flat_map, filter_flat_map.
  f_equal. apply flat_map_ext. intros f. now apply file_candidates_raise.
Qed.

(** X18.  The report has at most one candidate for a file with a title of
    folder A and one of folder B. *)
Theorem report_size_bound (fa fb : list pdf_file) (t : Q) :
  length (find_similar_titles fa fb t)
  <= length (filter titled fa) * length (filter titled fb).
Proof.
  unfold find_similar_titles.
  rewrite (Permutation_length (sort_desc_perm _)), discovered_flat_map.
  etransitivity; [apply candidates_length|].
  apply Nat.mul_le_mono_r. apply (fold_index_length fa []).
Qed.

(** X19.  With a threshold of 0 or less every item of the index is reported
    with every file with a title of folder B. *)
Theorem threshold_zero_reports_every_pair (fa fb : list pdf_file) (t : Q) :
  (t <= 0)%Q ->
  length (find_similar_titles fa fb t)
  = length (build_index fa) * length (filter titled fb).
Proof.
  intros Ht. unfold find_similar_titles.
  rewrite (Permutation_length (sort_desc_perm _)), discovered_flat_map.
  now apply candidates_all_below.
Qed.

(** X20.  When the files with a title in folder B have different paths, no
    pair of paths is reported twice. *)
Theorem no_pair_reported_twice (fa fb : list pdf_file) (t : Q) :
  NoDup (map rel_path (filter titled fb)) ->
  NoDup (map paths (find_similar_titles fa fb t)).
Proof.
  intros H. unfold find_similar_titles.
  apply (Permutation_NoDup (l := map paths (discovered fa fb t))).
  - apply Permutation_map. symmetry. apply sort_desc_perm.
  - rewrite discovered_flat_map. apply candidates_paths_NoDup; [|exact H].
    apply fold_index_NoDup. constructor.
Qed.

(** X21.  Two files whose titles are equal once normalised are reported with
    similarity 1 at every threshold up to 1, when the files with a title in
    folder A have different paths. *)
Theorem equal_normalized_titles_are_reported (fa fb : list pdf_file) (t : Q)
  (f g : pdf_file) :
  In f fa -> In g fb -> titled f = true -> titled g = true ->
  normalize_title (Some (title_of f)) = normalize_title (Some (title_of g)) ->
  NoDup (map rel_path (filter titled fa)) ->
  (t <= 1)%Q ->
  In (candidate_of (entry_of f) g (title_of g)) (find_similar_titles fa fb t)
  /\ (similarity (candidate_of (entry_of f) g (title_of g)) == 1)%Q.
Proof.
  intros Hf Hg Tf Tg Hn Hd Ht.
  assert (H1 : (similarity (candidate_of (entry_of f) g (title_of g)) == 1)%Q).
  { simpl. apply ratio_one_iff; [apply char_eqb_spec | exact Hn]. }
  split; [|exact H1].
  apply find_similar_titles_In. exists (entry_of f), g, (title_of g).
  split; [|split; [exact Hg | split; [now apply has_title_titled | split; [|reflexivity]]]].
  - rewrite (build_index_distinct fa Hd). apply in_map. apply filter_In. now split.
  - rewrite H1. exact Ht.
Qed.

End MatcherMore.

(** The files of [scenario_b] have a title each, and two paths. *)
Lemma scenario_b_paths :
  map rel_path (filter titled scenario_b) = [s2l "y.pdf"; s2l "z.pdf"].
Proof. reflexivity. Qed.

Lemma scenario_b_distinct : NoDup (map rel_path (filter titled scenario_b)).
Proof.
  rewrite scenario_b_paths. constructor; [|constructor; [intros [] | constructor]].
  intros [E|[]]. vm_compute in E. discriminate E.
Defined.

Lemma scenario_a_distinct : NoDup (map rel_path (filter titled scenario_a)).
Proof.
  change (map rel_path (filter titled scenario_a)) with [s2l "x.pdf"].
  constructor; [intros [] | constructor].
Defined.

(** X11 on the third scenario of the specification, threshold 2. *)
Lemma threshold_above_one_scenario :
  find_similar_titles scenario_a scenario_b 2 = [].
Proof.
  apply (threshold_above_one_reports_nothing (U := AsciiChar) scenario_a scenario_b 2).
  reflexivity.
Defined.

(** X15 on folder B of the third scenario of the specification. *)
Lemma index_of_distinct_paths_scenario :
  build_index scenario_b = map entry_of (filter titled scenario_b).
Proof.
  apply (index_of_distinct_paths (U := AsciiChar) scenario_b).
  exact scenario_b_distinct.
Defined.

(** X17 on the third scenario of the specification, thresholds 0.8 and 0.9. *)
Lemma raising_threshold_scenario :
  find_similar_titles scenario_a scenario_b (9 # 10)
  = filter (reaches (9 # 10)) (find_similar_titles scenario_a scenario_b (8 # 10)).
Proof.
  apply (raising_threshold_filters_report (U := AsciiChar) scenario_a scenario_b
           (8 # 10) (9 # 10)).
  unfold Qle. simpl. lia.
Defined.

(** X19 on the third scenario of the specification, threshold 0. *)
Lemma threshold_zero_scenario :
  length (find_similar_titles scenario_a scenario_b 0)
  = length (build_index scenario_a) * length (filter titled scenario_b).
Proof.
  apply (threshold_zero_reports_every_pair (U := AsciiChar) scenario_a scenario_b 0).
  apply Qle_refl.
Defined.

(** X20 on the third scenario of the specification. *)
Lemma no_pair_reported_twice_scenario :
  NoDup (map paths (find_similar_titles scenario_a scenario_b (8 # 10))).
Proof.
  apply (no_pair_reported_twice (U := AsciiChar) scenario_a scenario_b (8 # 10)).
  exact scenario_b_distinct.
Defined.

(** X21 on the file of [scenario_a] and a file with the same title in capitals
    and with punctuation. *)
Lemma equal_normalized_titles_scenario :
  In (candidate_of (entry_of (one_line_pdf "x.pdf" "Deep Learning for X"))
        shouting_pdf (title_of shouting_pdf))
     (find_similar_titles scenario_a [shouting_pdf] (8 # 10))
  /\ (similarity (candidate_of (entry_of (one_line_pdf "x.pdf" "Deep Learning for X"))
                    shouting_pdf (title_of shouting_pdf)) == 1)%Q.
Proof.
  apply (equal_normalized_titles_are_reported (U := AsciiChar)
           scenario_a [shouting_pdf] (8 # 10)
           (one_line_pdf "x.pdf" "Deep Learning for X") shouting_pdf).
  - left. reflexivity.
  - left. reflexivity.
  - reflexivity.
  - reflexivity.
  - reflexivity.
  - exact scenario_a_distinct.
  - unfold Qle. simpl. lia.
Defined.

(** *** The order of the listings *)

Section ListingOrder.
Context {U : PyChar}.

Lemma Permutation_filter_titled (l l' : list pdf_file) :
  Permutation l l' -> Permutation (filter titled l) (filter titled l').
Proof.
  induction 1 as [|x l l' H IH|x y l|l l' l'' H1 IH1 H2 IH2]; simpl.
  - constructor.
  - destruct (titled x); [now constructor | exact IH].
  - destruct (titled x), (titled y); try reflexivity. apply perm_swap.
  - etransitivity; eassumption.
Qed.

Lemma candidates_perm_index (idx idx' : list (str * title_info)) (t : Q)
  (fs : list pdf_file) :
  Permutation idx idx' ->
  Permutation (flat_map (file_candidates idx t) fs)
              (flat_map (file_candidates idx' t) fs).
Proof.
  intros H. induction fs as [|f fs IH]; simpl; [constructor|].
  apply Permutation_app; [|exact IH].
  rewrite !file_candidates_titled. destruct (titled f); [|constructor].
  now apply Permutation_flat_map.
Qed.

(** X22.  The order in which the two folders are listed changes only the
    order of the report, when the files with a title in folder A have
    different paths. *)
Theorem listing_order_changes_only_the_order (fa fa' fb fb' : list pdf_file) (t : Q) :
  Permutation fa fa' -> Permutation fb fb' ->
  NoDup (map rel_path (filter titled fa)) ->
  Permutation (find_similar_titles fa fb t) (find_similar_titles fa' fb' t).
Proof.
  intros Ha Hb Hd.
  assert (Hf : Permutation (filter titled fa) (filter titled fa'))
    by now apply Permutation_filter_titled.
  assert (Hd' : NoDup (map rel_path (filter titled fa'))).
  { eapply Permutation_NoDup; [|exact Hd]. now apply Permutation_map. }
  unfold find_similar_titles. rewrite !sort_desc_perm, !discovered_flat_map.
  rewrite (build_index_distinct fa Hd), (build_index_distinct fa' Hd').
  etransitivity.
  - apply Permutation_flat_map. exact Hb.
  - apply candidates_perm_index. now apply Permutation_map.
Qed.

End ListingOrder.

(** X22 on the third scenario of the specification, folder B listed in the
    other order. *)
Lemma listing_order_scenario :
  Permutation (find_similar_titles scenario_a scenario_b (8 # 10))
              (find_similar_titles scenario_a (rev scenario_b) (8 # 10)).
Proof.
  apply (listing_order_changes_only_the_order (U := AsciiChar)).
  - apply Permutation_refl.
  - apply perm_swap.
  - exact scenario_a_distinct.
Defined.

(** ** Further properties of the similarity *)

Section SearchFinds.
Context {A : Type} (eqb : A -> A -> bool).
Hypothesis eqb_spec : forall x y, reflect (x = y) (eqb x y).
Variables (a b : list A) (b2j : list (A * list nat)).

Lemma row_size_mono (i blo bhi : nat) (j2len : list (nat * nat)) (js : list nat) :
  forall newj2len best,
    size best <= size (snd (row i blo bhi js j2len newj2len best)).
Proof.
  induction js as [|j js IH]; intros newj2len best; cbn [row]; [simpl; lia|].
  destruct (j <? blo); [apply IH|].
  destruct (bhi <=? j); [simpl; lia|].
  etransitivity; [|apply IH].
  destruct (size best <? j2len_pred j2len j + 1) eqn:E; [|lia].
  apply Nat.ltb_lt in E. unfold size in *. simpl. lia.
Qed.

Lemma row_hit (i bhi : nat) (j2len : list (nat * nat)) (js : list nat) :
  forall newj2len best,
    js <> [] -> (forall j, In j js -> j < bhi) ->
    1 <= size (snd (row i 0 bhi js j2len newj2len best)).
Proof.
  destruct js as [|j js]; intros newj2len best Hn Hj; [congruence|].
  cbn [row]. change (j <? 0) with false. cbv iota.
  assert (Hb : (bhi <=? j) = false).
  { apply Nat.leb_gt. apply Hj. now left. }
  rewrite Hb. etransitivity; [|apply row_size_mono].
  destruct (size best <? j2len_pred j2len j + 1) eqn:E.
  - unfold size. simpl. lia.
  - apply Nat.ltb_ge in E. lia.
Qed.

Lemma rows_size_mono (blo bhi : nat) (n : nat) :
  forall i j2len best, size best <= size (rows eqb a b2j n i blo bhi j2len best).
Proof.
  induction n as [|n IH]; intros i j2len best; cbn [rows]; [lia|].
  match goal with |- context [row ?i ?blo ?bhi ?js ?j2 ?nj ?bst] =>
    pose proof (row_size_mono i blo bhi j2 js nj bst) as H;
    destruct (row i blo bhi js j2 nj bst) as [newj2len best']
  end.
  simpl in H. etransitivity; [exact H | apply IH].
Qed.

Lemma rows_hit (bhi : nat) (i0 : nat) (x : A) :
  nth_error a i0 = Some x -> b2j_get eqb b2j x <> [] ->
  (forall j, In j (b2j_get eqb b2j x) -> j < bhi) ->
  forall n i j2len best,
    i <= i0 -> i0 < i + n ->
    1 <= size (rows eqb a b2j n i 0 bhi j2len best).
Proof.
  intros Hx Hn Hj. induction n as [|n IH]; intros i j2len best H1 H2; [lia|].
  cbn [rows]. destruct (Nat.eq_dec i i0) as [->|Hne].
  - rewrite Hx.
    pose proof (row_hit i0 bhi j2len (b2j_get eqb b2j x) [] best Hn Hj) as H.
    destruct (row i0 0 bhi (b2j_get eqb b2j x) j2len [] best) as [newj2len best'].
    simpl in H. etransitivity; [exact H | apply rows_size_mono].
  - match goal with |- context [row ?i ?blo ?bhi ?js ?j2 ?nj ?bst] =>
      destruct (row i blo bhi js j2 nj bst) as [newj2len best']
    end.
    apply IH; lia.
Qed.

Lemma extend_left_size_mono (junk : bool) (alo blo : nat) (besti : nat) :
  forall bestj bestsize,
    bestsize <= size (extend_left eqb a b junk alo blo besti bestj bestsize).
Proof.
  induction besti as [|i IH]; intros bestj bestsize; [simpl; lia|].
  destruct bestj as [|j]; [simpl; lia|]. cbn [extend_left].
  destruct (nth_error a i) as [x|]; [|simpl; lia].
  destruct (nth_error b j) as [y|]; [|simpl; lia].
  match goal with |- context [if ?c then _ else _] => destruct c end; [|simpl; lia].
  etransitivity; [|apply IH]. lia.
Qed.

Lemma extend_right_size_mono (junk : bool) (ahi bhi besti bestj : nat) (n : nat) :
  forall bestsize,
    bestsize <= size (extend_right eqb a b junk n ahi bhi besti bestj bestsize).
Proof.
  induction n as [|n IH]; intros bestsize; [simpl; lia|]. cbn [extend_right].
  destruct (nth_error a (besti + bestsize)) as [x|]; [|simpl; lia].
  destruct (nth_error b (bestj + bestsize)) as [y|]; [|simpl; lia].
  match goal with |- context [if ?c then _ else _] => destruct c end; [|simpl; lia].
  etransitivity; [|apply IH]. lia.
Qed.

(** The search finds something when an element of [a] is in the index. *)
Lemma find_longest_match_hit (ahi bhi : nat) (i0 : nat) (x : A) :
  nth_error a i0 = Some x -> i0 < ahi -> b2j_get eqb b2j x <> [] ->
  (forall j, In j (b2j_get eqb b2j x) -> j < bhi) ->
  1 <= size (find_longest_match eqb a b b2j 0 ahi 0 bhi).
Proof.
  intros Hx Hi Hn Hj. unfold find_longest_match.
  pose proof (rows_hit bhi i0 x Hx Hn Hj (ahi - 0) 0 [] (0, 0, 0)) as H0.
  destruct (rows eqb a b2j (ahi - 0) 0 0 bhi [] (0, 0, 0)) as [[i1 j1] k1].
  assert (H1 : 1 <= k1) by (apply H0; lia). clear H0.
  pose proof (extend_left_size_mono false 0 0 i1 j1 k1) as H2.
  destruct (extend_left eqb a b false 0 0 i1 j1 k1) as [[i2 j2] k2].
  pose proof (extend_right_size_mono false ahi bhi i2 j2 (ahi - (i2 + k2)) k2) as H3.
  destruct (extend_right eqb a b false (ahi - (i2 + k2)) ahi bhi i2 j2 k2)
    as [[i3 j3] k3].
  pose proof (extend_left_size_mono true 0 0 i3 j3 k3) as H4.
  destruct (extend_left eqb a b true 0 0 i3 j3 k3) as [[i4 j4] k4].
  pose proof (extend_right_size_mono true ahi bhi i4 j4 (ahi - (i4 + k4)) k4) as H5.
  unfold size in *. simpl in *. lia.
Qed.

Lemma blocks_loop_total_mono (fuel : nat) :
  forall q acc res,
    blocks_loop eqb a b b2j fuel q acc = Some res -> total acc <= total res.
Proof.
  induction fuel as [|fuel IH]; intros q acc res H.
  - destruct q as [|[[[alo ahi] blo] bhi] q]; simpl in H; [|discriminate].
    inversion H. lia.
  - destruct q as [|r q]; [simpl in H; inversion H; lia|].
    rewrite blocks_loop_S in H. cbv zeta in H.
    destruct (0 <? size _) in H.
    + apply IH in H. rewrite total_app in H. lia.
    + now apply IH in H.
Qed.

Hypothesis b2j_sound : forall x j, In j (b2j_get eqb b2j x) -> nth_error b j = Some x.

(** Nothing is matched when no element of [a] is in [b]. *)
Lemma blocks_loop_disjoint (fuel : nat) :
  (forall x, In x a -> ~ In x b) ->
  forall q acc res,
    Forall wf_region q ->
    blocks_loop eqb a b b2j fuel q acc = Some res -> res = acc.
Proof.
  intros Hd. induction fuel as [|fuel IH]; intros q acc res Hq H.
  - destruct q as [|[[[alo ahi] blo] bhi] q]; simpl in H; [|discriminate].
    now inversion H.
  - destruct q as [|r q]; [simpl in H; now inversion H|].
    rewrite blocks_loop_S in H. cbv zeta in H.
    inversion Hq as [|? ? Hr Hq']; subst.
    pose proof (found_valid eqb eqb_spec a b b2j b2j_sound r Hr) as Hv.
    destruct (find_longest_match eqb a b b2j (fst (fst (fst r))) (snd (fst (fst r)))
                (snd (fst r)) (snd r)) as [[i j] k].
    destruct (0 <? size (i, j, k)) eqn:E.
    + exfalso. apply Nat.ltb_lt in E. unfold size in E. simpl in E.
      destruct r as [[[alo ahi] blo] bhi]. destruct Hv as [_ [_ [_ [_ Hm]]]].
      destruct (Hm 0 E) as [x [Ha Hb]].
      apply nth_error_In in Ha, Hb. exact (Hd x Ha Hb).
    + now apply IH in H.
Qed.

End SearchFinds.

Section RatioMore.
Context {A : Type} (eqb : A -> A -> bool).
Hypothesis eqb_spec : forall x y, reflect (x = y) (eqb x y).

Lemma matched_disjoint (a b : list A) :
  (forall x, In x a -> ~ In x b) -> total (get_matching_blocks eqb a b) = 0.
Proof.
  intros Hd. destruct (raw_blocks_defined eqb eqb_spec a b) as [mb Hm].
  rewrite (matched_total eqb a b mb Hm). unfold raw_blocks in Hm.
  apply (blocks_loop_disjoint eqb eqb_spec a b (chain_b eqb b)) in Hm.
  - now subst.
  - intros x j. apply chain_b_sound. exact eqb_spec.
  - exact Hd.
  - constructor; [|constructor]. unfold wf_region. lia.
Qed.

Lemma matched_shared (a b : list A) (x : A) :
  length b < 200 -> In x a -> In x b -> 1 <= total (get_matching_blocks eqb a b).
Proof.
  intros Hl Ha Hb. destruct (raw_blocks_defined eqb eqb_spec a b) as [mb Hm].
  rewrite (matched_total eqb a b mb Hm). unfold raw_blocks in Hm.
  replace (2 * length a + 1) with (S (2 * length a)) in Hm by lia.
  rewrite blocks_loop_S in Hm. cbv zeta in Hm. cbn [fst snd] in Hm.
  apply In_nth_error in Ha. destruct Ha as [i0 Hi].
  assert (Hget : b2j_get eqb (chain_b eqb b) x = positions eqb x b 0).
  { rewrite (chain_b_get eqb eqb_spec). unfold popular.
    replace (200 <=? length b) with false; [reflexivity|].
    symmetry. apply Nat.leb_gt. exact Hl. }
  assert (Hhit : 1 <= size (find_longest_match eqb a b (chain_b eqb b)
                              0 (length a) 0 (length b))).
  { apply (find_longest_match_hit eqb a b (chain_b eqb b) (length a) (length b) i0 x Hi).
    - apply nth_error_Some. congruence.
    - rewrite Hget. apply In_nth_error in Hb. destruct Hb as [j0 Hj].
      intros E.
      assert (Hin : In j0 (positions eqb x b 0)).
      { apply (positions_In eqb eqb_spec). rewrite Nat.sub_0_r. split; [lia | exact Hj]. }
      rewrite E in Hin. exact Hin.
    - intros j Hj. apply (chain_b_sound eqb eqb_spec) in Hj.
      apply nth_error_Some. congruence. }
  apply Nat.ltb_lt in Hhit. rewrite Hhit in Hm.
  apply blocks_loop_total_mono in Hm. rewrite total_app, total_one in Hm.
  apply Nat.ltb_lt in Hhit. lia.
Qed.

Lemma calculate_ratio_zero (len : nat) : 0 < len -> (calculate_ratio 0 len == 0)%Q.
Proof.
  intros H. unfold calculate_ratio.
  replace (len =? 0) with false by (symmetry; apply Nat.eqb_neq; lia).
  reflexivity.
Qed.

Lemma calculate_ratio_pos (m len : nat) :
  0 < m -> 0 < len -> (0 < calculate_ratio m len)%Q.
Proof.
  intros Hm H. unfold calculate_ratio.
  replace (len =? 0) with false by (symmetry; apply Nat.eqb_neq; lia).
  unfold Qlt. simpl Qnum. simpl Qden. lia.
Qed.

Lemma ratio_disjoint (a b : list A) :
  a <> [] \/ b <> [] -> (forall x, In x a -> ~ In x b) -> (ratio eqb a b == 0)%Q.
Proof.
  intros Hne Hd. rewrite ratio_total, (matched_disjoint a b Hd).
  apply calculate_ratio_zero.
  destruct a, b; simpl; try lia. destruct Hne; congruence.
Qed.

Lemma ratio_shared (a b : list A) (x : A) :
  length b < 200 -> In x a -> In x b -> (0 < ratio eqb a b)%Q.
Proof.
  intros Hl Ha Hb. rewrite ratio_total.
  apply calculate_ratio_pos.
  - apply (matched_shared a b x Hl Ha Hb).
  - destruct a; [destruct Ha | simpl; lia].
Qed.

End RatioMore.

Section RatioExtras.
Context {U : PyChar}.

(** X23.  Two normalised titles that have no character in common have
    similarity 0, unless both are empty (then it is 1). *)
Theorem titles_without_common_character_have_similarity_zero (a b : str) :
  a <> [] \/ b <> [] -> (forall c, In c a -> ~ In c b) ->
  (ratio char_eqb a b == 0)%Q.
Proof. apply ratio_disjoint. apply char_eqb_spec. Qed.

(** X24.  When the second title has fewer than 200 characters, so that the
    matcher deletes no frequent character from its index, a character in
    common gives a similarity above 0. *)
Theorem titles_with_common_character_have_positive_similarity (a b : str) (c : char) :
  length b < 200 -> In c a -> In c b -> (0 < ratio char_eqb a b)%Q.
Proof. apply ratio_shared. apply char_eqb_spec. Qed.

End RatioExtras.

(** X23 on [abc] and [xyz]. *)
Lemma no_common_character_example :
  (ratio char_eqb (s2l "abc") (s2l "xyz") == 0)%Q.
Proof.
  apply (titles_without_common_character_have_similarity_zero (U := AsciiChar)
           (s2l "abc") (s2l "xyz")).
  - left. discriminate.
  - intros c Ha Hb. vm_compute in Ha, Hb.
    destruct Ha as [<-|[<-|[<-|[]]]];
      destruct Hb as [E|[E|[E|[]]]]; discriminate E.
Defined.

(** X24 on [tide] and [diet], which have a [t]. *)
Lemma common_character_example :
  (0 < ratio char_eqb (s2l "tide") (s2l "diet"))%Q.
Proof.
  apply (titles_with_common_character_have_positive_similarity (U := AsciiChar)
           (s2l "tide") (s2l "diet") "t"%char).
  - simpl. lia.
  - left. reflexivity.
  - right. right. right. left. reflexivity.
Defined.

(** *** Lengths *)

Section LengthBound.
Context {A : Type} (eqb : A -> A -> bool).
Hypothesis eqb_spec : forall x y, reflect (x = y) (eqb x y).

Lemma calculate_ratio_mono (m1 m2 len : nat) :
  m1 <= m2 -> (calculate_ratio m1 len <= calculate_ratio m2 len)%Q.
Proof.
  intros H. unfold calculate_ratio. destruct (len =? 0); [apply Qle_refl|].
  unfold Qle. simpl Qnum. simpl Qden.
  apply Z.mul_le_mono_nonneg_r; lia.
Qed.

Lemma ratio_length_bound (a b : list A) :
  (ratio eqb a b
   <= calculate_ratio (Nat.min (length a) (length b)) (length a + length b))%Q.
Proof.
  rewrite ratio_total. apply calculate_ratio_mono. apply matched_bound. exact eqb_spec.
Qed.

End LengthBound.

Section LengthBoundTitles.
Context {U : PyChar}.

(** X25.  The similarity of two titles is at most twice the length of the
    shorter over the sum of the two lengths: [_calculate_ratio] of the shorter
    length. *)
Theorem similarity_bounded_by_lengths (a b : str) :
  (ratio char_eqb a b
   <= calculate_ratio (Nat.min (length a) (length b)) (length a + length b))%Q.
Proof. apply ratio_length_bound. apply char_eqb_spec. Qed.

End LengthBoundTitles.

(** ** The threshold main passes on *)

(** X26.  The check of lines 202-210 lets a number between 0 and 1 through
    as it is and puts 0.8 in the place of everything else but not-a-number: a
    number below 0 or above 1, an infinity, an input that does not parse.
    Not-a-number passes, the two comparisons of line 204 being false for it.
    So the threshold [main] passes to the matcher is a number between 0 and
    1, or not-a-number, and that only when the input parses to it; checking
    it again changes nothing.  The default is the double next to 8/10. *)
Theorem checked_threshold_in_range :
  (forall q, (0 <= q)%Q -> (q <= 1)%Q ->
     checked_threshold (Returns (Finite q)) = Finite q)
  /\ (forall q, (q < 0)%Q \/ (1 < q)%Q ->
        checked_threshold (Returns (Finite q)) = default_threshold)
  /\ checked_threshold (Returns PosInf) = default_threshold
  /\ checked_threshold (Returns NegInf) = default_threshold
  /\ checked_threshold Raises = default_threshold
  /\ checked_threshold (Returns NaN) = NaN
  /\ (forall parsed,
        match checked_threshold parsed with
        | Finite q => (0 <= q)%Q /\ (q <= 1)%Q
        | NaN => parsed = Returns NaN
        | PosInf | NegInf => False
        end)
  /\ (forall parsed,
        checked_threshold (Returns (checked_threshold parsed)) = checked_threshold parsed)
  /\ (exists d, default_threshold = Finite d
                /\ ((8 # 10) - (1 # 18014398509481984) <= d)%Q
                /\ (d <= (8 # 10) + (1 # 18014398509481984))%Q).
Proof.
  assert (Hd : (0 <= 3602879701896397 # 4503599627370496)%Q
               /\ (3602879701896397 # 4503599627370496 <= 1)%Q).
  { split; unfold Qle; simpl; lia. }
  assert (Hin : forall q, (0 <= q)%Q -> (q <= 1)%Q ->
                          checked_threshold (Returns (Finite q)) = Finite q).
  { intros q H0 H1. cbn [checked_threshold float_ltb].
    apply Qle_bool_iff in H0, H1. now rewrite H0, H1. }
  assert (Hrange : forall parsed,
             match checked_threshold parsed with
             | Finite q => (0 <= q)%Q /\ (q <= 1)%Q
             | NaN => parsed = Returns NaN
             | PosInf | NegInf => False
             end).
  { intros [[q| | |]|]; cbn [checked_threshold float_ltb orb];
      try exact Hd; try reflexivity.
    destruct (Qle_bool 0 q) eqn:E0; cbn [negb orb]; [|exact Hd].
    destruct (Qle_bool q 1) eqn:E1; cbn [negb]; [|exact Hd].
    split; now apply Qle_bool_iff. }
  repeat (split; [try reflexivity|]).
  - exact Hin.
  - intros q [H|H]; cbn [checked_threshold float_ltb].
    + assert (E : Qle_bool 0 q = false).
      { destruct (Qle_bool 0 q) eqn:E; [|reflexivity].
        apply Qle_bool_iff in E. exfalso. exact (Qlt_not_le _ _ H E). }
      now rewrite E.
    + assert (E : Qle_bool q 1 = false).
      { destruct (Qle_bool q 1) eqn:E; [|reflexivity].
        apply Qle_bool_iff in E. exfalso. exact (Qlt_not_le _ _ H E). }
      rewrite E. now rewrite orb_true_r.
  - exact Hrange.
  - intros parsed. specialize (Hrange parsed).
    destruct (checked_threshold parsed) as [q| | |]; try contradiction.
    + destruct Hrange as [H0 H1]. now apply Hin.
    + reflexivity.
  - exists (3602879701896397 # 4503599627370496). split; [reflexivity|].
    split; unfold Qle; simpl; lia.
Qed.
